(** * The waterfall component of the Vue renderer

    A shallow embedding of
    [html5/render/vue/components/scrollable/waterfall.js]: the prop
    validators, the slot classification of [_createChildren] and the
    column rebalancing of [_reLayoutChildren], followed by the properties
    proved about them.

    Conventions of the embedding.
    - Layout measurements ([getBoundingClientRect]) are integers (whole CSS
      pixels), on which the arithmetic of JavaScript Numbers is exact.  What
      is said of a tracker is said by the operations the code performs on
      it, in the order it performs them.
    - A string is read as the code points it spells in UTF-8.
    - A DOM element is a handle ([node]); its attributes and its rectangle
      are read through a [Document].  A column container is the list of
      its cell elements, first child first.
    - An abrupt completion (a thrown [TypeError]) is [None]. *)

From Stdlib Require Import ZArith Ascii String.
From stdpp Require Import gmap strings list sorting.

Open Scope Z_scope.

(** ** ECMAScript values and coercions *)

Module JS.

(** A Number: NaN, an infinity, or the finite double [m * 2^e]. *)
Inductive Number :=
  | NaN
  | Infinity (negative : bool)
  | Finite (m e : Z).

(** [ToInt32]: NaN and the infinities give 0, a finite value is truncated
    towards zero and wrapped into [-2^31, 2^31). *)
Definition wrap32 (z : Z) : Z :=
  let int32bit := z mod 2 ^ 32 in
  if 2 ^ 31 <=? int32bit then int32bit - 2 ^ 32 else int32bit.

Definition truncate (m e : Z) : Z :=
  if 0 <=? e then m * 2 ^ e else Z.quot m (2 ^ (- e)).

Definition ToInt32 (x : Number) : Z :=
  match x with
  | NaN | Infinity _ => 0
  | Finite m e => wrap32 (truncate m e)
  end.

(** The operator [~] on an int32. *)
Definition bitwiseNOT (z : Z) : Z := Z.lnot z.

(** Rounding of the positive rational [n / d] to the nearest double, ties
    to even, overflowing to infinity. *)
Definition ge_pow2 (n d e : Z) : bool :=
  if 0 <=? e then d * 2 ^ e <=? n else d <=? n * 2 ^ (- e).

Definition roundToDouble (negative : bool) (n d : Z) : Number :=
  if n =? 0 then Finite 0 0
  else
    let e0 := Z.log2 n - Z.log2 d in
    let e := if ge_pow2 n d e0 then e0 else e0 - 1 in
    let k := Z.max (e - 52) (- 1074) in
    let num := if 0 <=? k then n else n * 2 ^ (- k) in
    let den := if 0 <=? k then d * 2 ^ k else d in
    let q := num / den in
    let r := num mod den in
    let m := if (den <? 2 * r) || ((den =? 2 * r) && Z.odd q)
             then q + 1 else q in
    if (0 <=? k) && (2 ^ 1024 <=? m * 2 ^ k) then Infinity negative
    else Finite (if negative then - m else m) k.

(** *** Characters *)

(** A string stands for the JavaScript string it spells in UTF-8, read as
    its sequence of code points; a byte that begins no well-formed
    sequence stands for the character of its own value.  (A character
    above U+FFFF is two code units in JavaScript, none of them white space
    or a digit, and is one code point here.) *)

Definition code (c : ascii) : Z := Z.of_N (N_of_ascii c).

(** The payload of a continuation byte. *)
Definition continuation (c : ascii) : option Z :=
  let n := code c in
  if (128 <=? n) && (n <? 192) then Some (n - 128) else None.

Fixpoint codePoints (l : list ascii) : list Z :=
  match l with
  | [] => []
  | b :: rest =>
      let n := code b in
      let single := n :: codePoints rest in
      if n <? 194 then single
      else
        match rest with
        | c1 :: rest1 =>
            match continuation c1 with
            | Some x1 =>
                if n <? 224 then ((n - 192) * 64 + x1) :: codePoints rest1
                else
                  match rest1 with
                  | c2 :: rest2 =>
                      match continuation c2 with
                      | Some x2 =>
                          let p3 := (n - 224) * 4096 + x1 * 64 + x2 in
                          if n <? 240 then
                            if (2048 <=? p3) &&
                               negb ((55296 <=? p3) && (p3 <? 57344))
                            then p3 :: codePoints rest2
                            else single
                          else
                            match rest2 with
                            | c3 :: rest3 =>
                                match continuation c3 with
                                | Some x3 =>
                                    let p4 :=
                                      (n - 240) * 262144 + x1 * 4096
                                      + x2 * 64 + x3 in
                                    if (n <? 245) && (65536 <=? p4) &&
                                       (p4 <? 1114112)
                                    then p4 :: codePoints rest3
                                    else single
                                | None => single
                                end
                            | [] => single
                            end
                      | None => single
                      end
                  | [] => single
                  end
            | None => single
            end
        | [] => single
        end
  end.

Definition characters (s : string) : list Z :=
  codePoints (list_ascii_of_string s).

(** StrWhiteSpaceChar: the white space and the line terminators. *)
Definition isWhiteSpace (c : Z) : bool :=
  (c =? 9) || (c =? 10) || (c =? 11) || (c =? 12) || (c =? 13) ||
  (c =? 32) || (c =? 160) || (c =? 5760) ||
  ((8192 <=? c) && (c <=? 8202)) || (c =? 8232) || (c =? 8233) ||
  (c =? 8239) || (c =? 8287) || (c =? 12288) || (c =? 65279).

Definition digitValue (c : Z) : option Z :=
  if (48 <=? c) && (c <=? 57) then Some (c - 48)
  else if (97 <=? c) && (c <=? 122) then Some (c - 87)
  else if (65 <=? c) && (c <=? 90) then Some (c - 55)
  else None.

Definition radixDigit (radix : Z) (c : Z) : option Z :=
  match digitValue c with
  | Some d => if d <? radix then Some d else None
  | None => None
  end.

(** The longest prefix of digits of the radix, and what follows it. *)
Fixpoint takeDigits (radix : Z) (l : list Z) : list Z * list Z :=
  match l with
  | [] => ([], [])
  | c :: l' =>
      match radixDigit radix c with
      | Some d => let '(ds, rest) := takeDigits radix l' in (d :: ds, rest)
      | None => ([], l)
      end
  end.

Definition digitsValue (radix : Z) (ds : list Z) : Z :=
  fold_left (fun acc d => acc * radix + d) ds 0.

Fixpoint trimStart (l : list Z) : list Z :=
  match l with
  | c :: l' => if isWhiteSpace c then trimStart l' else l
  | [] => []
  end.

Definition trimEnd (l : list Z) : list Z := rev (trimStart (rev l)).

Definition trim (l : list Z) : list Z := trimEnd (trimStart l).

Definition isEmpty {A} (l : list A) : bool :=
  match l with [] => true | _ => false end.

(** Whether the character is one of the two. *)
Definition oneOf (c : Z) (x y : ascii) : bool :=
  (c =? code x) || (c =? code y).

(** A leading sign: [true] stands for [-]. *)
Definition takeSign (l : list Z) : bool * list Z :=
  match l with
  | c :: l' =>
      if c =? code "-" then (true, l')
      else if c =? code "+" then (false, l')
      else (false, l)
  | [] => (false, l)
  end.

(** *** StringToNumber *)

(** NonDecimalIntegerLiteral: [0x], [0o], [0b] and at least one digit. *)
Definition nonDecimalRadix (l : list Z) : option (Z * list Z) :=
  match l with
  | z :: p :: l' =>
      if negb (z =? code "0") then None
      else if oneOf p "x" "X" then Some (16, l')
      else if oneOf p "o" "O" then Some (8, l')
      else if oneOf p "b" "B" then Some (2, l')
      else None
  | _ => None
  end.

(** ExponentPart, optional: the exponent, or [None] on a syntax error. *)
Definition exponentPart (l : list Z) : option Z :=
  match l with
  | [] => Some 0
  | c :: l' =>
      if oneOf c "e" "E" then
        let '(negative, l'') := takeSign l' in
        let '(ds, rest) := takeDigits 10 l'' in
        if isEmpty ds || negb (isEmpty rest) then None
        else Some (if negative then - digitsValue 10 ds else digitsValue 10 ds)
      else None
  end.

(** StrUnsignedDecimalLiteral other than [Infinity]: the decimal mantissa
    and exponent, the value being [mantissa * 10^exponent]. *)
Definition unsignedDecimal (l : list Z) : option (Z * Z) :=
  let '(ip, rest) := takeDigits 10 l in
  let '(fp, rest') :=
    match rest with
    | c :: r => if c =? code "." then takeDigits 10 r else ([], rest)
    | [] => ([], rest)
    end in
  if isEmpty ip && isEmpty fp then None
  else
    match exponentPart rest' with
    | Some e => Some (digitsValue 10 (ip ++ fp), e - Z.of_nat (length fp))
    | None => None
    end.

Definition decimalToDouble (negative : bool) (m e : Z) : Number :=
  if 0 <=? e then roundToDouble negative (m * 10 ^ e) 1
  else roundToDouble negative m (10 ^ (- e)).

Definition StringToNumber (s : string) : Number :=
  let l := trim (characters s) in
  if isEmpty l then Finite 0 0
  else
    match nonDecimalRadix l with
    | Some (radix, l') =>
        let '(ds, rest) := takeDigits radix l' in
        if isEmpty ds || negb (isEmpty rest) then NaN
        else roundToDouble false (digitsValue radix ds) 1
    | None =>
        let '(negative, l') := takeSign l in
        if bool_decide (l' = characters "Infinity")
        then Infinity negative
        else
          match unsignedDecimal l' with
          | Some (m, e) => decimalToDouble negative m e
          | None => NaN
          end
    end.

(** *** parseInt on a string, no radix given: [None] stands for NaN. *)
Definition parseInt (s : string) : option Z :=
  let '(negative, l) := takeSign (trimStart (characters s)) in
  let '(radix, l') :=
    match l with
    | z :: p :: r =>
        if (z =? code "0") && oneOf p "x" "X" then (16, r) else (10, l)
    | _ => (10, l)
    end in
  let '(ds, _) := takeDigits radix l' in
  if isEmpty ds then None
  else Some (if negative then - digitsValue radix ds else digitsValue radix ds).

End JS.

(** ** Props and their validators *)

Module Props.

(** The values a prop can be given.  A Number is an integer below [10^21]
    (printed by [ToString] as its decimal numeral, which [parseInt] reads
    back) or NaN; a Symbol is the value on which [parseInt] throws. *)
Inductive Value :=
  | Undefined
  | Str (s : string)
  | Int (n : Z)
  | NotANumber
  | Symbol.

(** An abrupt completion is [Throw]. *)
Inductive Completion (A : Type) :=
  | Return (a : A)
  | Throw.
Arguments Return {A} a.
Arguments Throw {A}.

(** The declared [type: [String, Number]]. *)
Definition hasType (val : Value) : bool :=
  match val with
  | Str _ | Int _ | NotANumber => true
  | Undefined | Symbol => false
  end.

(** [!val] *)
Definition falsy (val : Value) : bool :=
  match val with
  | Undefined | NotANumber => true
  | Str s => String.eqb s ""
  | Int n => n =? 0
  | Symbol => false
  end.

(** [val === str] *)
Definition strictEquals (val : Value) (str : string) : bool :=
  match val with
  | Str s => String.eqb s str
  | _ => false
  end.

(** [parseInt(val)]: [None] stands for NaN. *)
Definition parseInt (val : Value) : Completion (option Z) :=
  match val with
  | Undefined => Return (JS.parseInt "undefined")
  | Str s => Return (JS.parseInt s)
  | Int n => Return (Some n)
  | NotANumber => Return (JS.parseInt "NaN")
  | Symbol => Throw
  end.

(** [!isNaN(val) && val > 0] *)
Definition positive (val : option Z) : bool :=
  match val with
  | Some n => 0 <? n
  | None => false
  end.

Definition DEFAULT_COLUMN_COUNT : Value := Int 1.

Record PropOptions := {
  default : Value;
  validator : Value -> Completion bool
}.

Definition columnGap : PropOptions := {|
  default := Str "normal";
  validator val :=
    if falsy val || strictEquals val "normal" then Return true
    else
      match parseInt val with
      | Return val => Return (positive val)
      | Throw => Throw
      end
|}.

Definition columnCount : PropOptions := {|
  default := DEFAULT_COLUMN_COUNT;
  validator val :=
    match parseInt val with
    | Return val => Return (positive val)
    | Throw => Throw
    end
|}.

Definition columnWidth : PropOptions := {|
  default := Str "auto";
  validator val :=
    if falsy val || strictEquals val "auto" then Return true
    else
      match parseInt val with
      | Return val => Return (positive val)
      | Throw => Throw
      end
|}.

(** Modelled from the spec: the framework's handling of a declared prop,
    which is not part of the component file.  Per the configuration
    interface, a value is validated at setup and an invalid one is replaced
    by the documented default; an absent value takes the default too. *)
Definition configure (p : PropOptions) (val : Value) : Completion Value :=
  match val with
  | Undefined => Return (default p)
  | _ =>
      match validator p val with
      | Return true => Return val
      | Return false => Return (default p)
      | Throw => Throw
      end
  end.

(** The values the validator of [columnGap] is said to accept: ['normal'],
    the empty string, an absent value, and what parses to a strictly
    positive integer. *)
Definition SaidAccepted (val : Value) : Prop :=
  val = Str "normal" \/ val = Str "" \/ val = Undefined \/
  exists n, parseInt val = Return (Some n) /\ 0 < n.

End Props.

(** ** Slot classification: [_createChildren] and [_genList] *)

Module Children.

(** [vnode.componentOptions]: only its [tag] is read. *)
Record ComponentOptions := { ctag : option string }.

(** [vnode.data]: only [attrs] is read; a component vnode always has a data
    object. *)
Record VNodeData := { attrs : option (gmap string string) }.

Record VNode := {
  tag : option string;
  componentOptions : option ComponentOptions;
  data : VNodeData
}.

(** What [_createChildren] returns: slot vnodes passed through, and
    elements created by [h] (their data object is not represented). *)
#[warnings="-register-all"]
Inductive Rendered :=
  | Slot (vnode : VNode)
  | h (name : string) (children : list Rendered).

(** The fields of [this] the method reads or writes. *)
Record Waterfall := {
  _headers : list VNode;
  _others : list VNode;
  _footers : list VNode;
  _cells : list VNode;
  _refresh : option VNode;
  _loading : option VNode;
  _listCells : list Rendered
}.

(** [!vnode.tag]: undefined or the empty string. *)
Definition noTag (vnode : VNode) : bool :=
  match tag vnode with
  | None => true
  | Some s => String.eqb s ""
  end.

(** [vnode.data.attrs && vnode.data.attrs['data-type'] === 'footer'] *)
Definition footerMarker (vnode : VNode) : bool :=
  match attrs (data vnode) with
  | Some a => bool_decide (a !! "data-type" = Some "footer")
  | None => false
  end.

Definition tagIs (t : option string) (name : string) : bool :=
  match t with
  | Some s => String.eqb s name
  | None => false
  end.

(** The callback of [slots.filter]: the updated [this] and the verdict. *)
Definition filterSlot (this : Waterfall) (vnode : VNode) : Waterfall * bool :=
  if noTag vnode then (this, false)
  else
    match componentOptions vnode with
    | None => (this, false)
    | Some options =>
        let tag := ctag options in
        if tagIs tag "refresh" then
          ({| _headers := _headers this; _others := _others this;
              _footers := _footers this; _cells := _cells this;
              _refresh := Some vnode; _loading := _loading this;
              _listCells := _listCells this |}, false)
        else if tagIs tag "loading" then
          ({| _headers := _headers this; _others := _others this;
              _footers := _footers this; _cells := _cells this;
              _refresh := _refresh this; _loading := Some vnode;
              _listCells := _listCells this |}, false)
        else if tagIs tag "header" then
          if footerMarker vnode then
            ({| _headers := _headers this; _others := _others this;
                _footers := _footers this ++ [vnode]; _cells := _cells this;
                _refresh := _refresh this; _loading := _loading this;
                _listCells := _listCells this |}, false)
          else
            ({| _headers := _headers this ++ [vnode]; _others := _others this;
                _footers := _footers this; _cells := _cells this;
                _refresh := _refresh this; _loading := _loading this;
                _listCells := _listCells this |}, false)
        else if negb (tagIs tag "cell") then
          ({| _headers := _headers this; _others := _others this ++ [vnode];
              _footers := _footers this; _cells := _cells this;
              _refresh := _refresh this; _loading := _loading this;
              _listCells := _listCells this |}, false)
        else (this, true)
    end.

(** [slots.filter(callback)], the callback updating [this] as it goes. *)
Fixpoint filterSlots (this : Waterfall) (slots : list VNode)
  : Waterfall * list VNode :=
  match slots with
  | [] => (this, [])
  | vnode :: rest =>
      let '(this, keep) := filterSlot this vnode in
      let '(this, kept) := filterSlots this rest in
      (this, if keep then vnode :: kept else kept)
  end.

(** [_genList]: every cell is wrapped in a [div] of its own. *)
Definition _genList (this : Waterfall) : Waterfall :=
  {| _headers := _headers this; _others := _others this;
     _footers := _footers this; _cells := _cells this;
     _refresh := _refresh this; _loading := _loading this;
     _listCells := map (fun cell => h "html:div" [Slot cell]) (_cells this) |}.

(** [x && children.push(x)] *)
Definition pushIf (children : list Rendered) (x : option VNode)
  : list Rendered :=
  match x with
  | Some vnode => children ++ [Slot vnode]
  | None => children
  end.

(** [this.$slots.default || []] is the argument [slots]. *)
Definition _createChildren (this : Waterfall) (slots : list VNode)
  : Waterfall * list Rendered :=
  let this :=
    {| _headers := []; _others := []; _footers := []; _cells := _cells this;
       _refresh := _refresh this; _loading := _loading this;
       _listCells := _listCells this |} in
  let '(this, cells) := filterSlots this slots in
  let this :=
    {| _headers := _headers this; _others := _others this;
       _footers := _footers this; _cells := cells;
       _refresh := _refresh this; _loading := _loading this;
       _listCells := _listCells this |} in
  let this := _genList this in
  let children := [] in
  let children := pushIf children (_refresh this) in
  let children :=
    (children ++ map Slot (_headers this)) ++ map Slot (_others this) in
  let children := children ++ [h "html:div" (_listCells this)] in
  let children := children ++ map Slot (_footers this) in
  let children := pushIf children (_loading this) in
  (this, [h "html:div" children]).

(** The group a slot node falls into. *)
Inductive Group := Dropped | Refresh | Loading | Header | Footer | Other | Cell.

Global Instance Group_eq_dec : EqDecision Group.
Proof. solve_decision. Defined.

Definition group (vnode : VNode) : Group :=
  if noTag vnode then Dropped
  else
    match componentOptions vnode with
    | None => Dropped
    | Some options =>
      if tagIs (ctag options) "refresh" then Refresh
      else if tagIs (ctag options) "loading" then Loading
      else if tagIs (ctag options) "header" then
        if footerMarker vnode then Footer else Header
      else if tagIs (ctag options) "cell" then Cell
      else Other
    end.

Definition ofGroup (g : Group) (slots : list VNode) : list VNode :=
  filter (fun vnode => group vnode = g) slots.

(** The last node of the group among the slots, else the one [this]
    still holds from an earlier call. *)
Definition latest (g : Group) (slots : list VNode) (previous : option VNode)
  : option VNode :=
  match last (ofGroup g slots) with
  | Some vnode => Some vnode
  | None => previous
  end.

Definition optional (x : option VNode) : list Rendered :=
  match x with
  | Some vnode => [Slot vnode]
  | None => []
  end.

(** A node without a tag or without component options. *)
Definition Untagged (vnode : VNode) : Prop :=
  noTag vnode = true \/ componentOptions vnode = None.

(** The indicators [this] holds were stored by an earlier call. *)
Definition Stored (this : Waterfall) : Prop :=
  (forall vnode, _refresh this = Some vnode -> group vnode = Refresh) /\
  (forall vnode, _loading this = Some vnode -> group vnode = Loading).

(** The slot vnodes of a rendered tree, in document order. *)
Fixpoint slotsOf (r : Rendered) : list VNode :=
  match r with
  | Slot vnode => [vnode]
  | h _ children => flat_map slotsOf children
  end.

End Children.

(** ** [Array.prototype.sort] with a comparator

    The comparator's result is converted to a Number before use.  When the
    comparator is not a consistent one, ECMAScript leaves the resulting
    order to the implementation, so two implementations are given: the
    binary insertion sort V8 runs on a short array since version 7.0, and
    the sort V8 ran before, an insertion sort on an array of at most 10
    elements and a quicksort on a longer one. *)

Module Sort.

Section Comparator.

Variable comparefn : Z -> Z -> Z.

(** *** Run detection and binary insertion (V8 from 7.0, short arrays) *)

(** The elements after the first two that continue the run. *)
Fixpoint continueRun (isDescending : bool) (previousElement : Z)
    (rest : list Z) : nat :=
  match rest with
  | [] => 0%nat
  | currentElement :: rest' =>
      let order := comparefn currentElement previousElement in
      if (if isDescending then 0 <=? order else order <? 0) then 0%nat
      else S (continueRun isDescending currentElement rest')
  end.

(** [CountAndMakeRun]: the length of the run the array starts with, and
    the array, that run reversed when it is descending. *)
Definition CountAndMakeRun (workArray : list Z) : nat * list Z :=
  match workArray with
  | [] => (0%nat, workArray)
  | [_] => (1%nat, workArray)
  | elementHigh :: elementLow :: rest =>
      let order := comparefn elementLow elementHigh in
      let isDescending := order <? 0 in
      let runLength := (2 + continueRun isDescending elementLow rest)%nat in
      (runLength,
       if isDescending
       then rev (take runLength workArray) ++ drop runLength workArray
       else workArray)
  end.

(** The binary search for the place of [pivot] in [left, right). *)
Fixpoint insertionPoint (fuel : nat) (workArray : list Z) (pivot : Z)
    (left right : nat) : nat :=
  match fuel with
  | O => left
  | S fuel' =>
      if (left <? right)%nat then
        let mid := (left + (right - left) / 2)%nat in
        match workArray !! mid with
        | Some element =>
            if comparefn pivot element <? 0
            then insertionPoint fuel' workArray pivot left mid
            else insertionPoint fuel' workArray pivot (mid + 1)%nat right
        | None => left
        end
      else left
  end.

(** One round: the element at [start] moves to its insertion point. *)
Definition insertPivot (workArray : list Z) (start : nat) : list Z :=
  match workArray !! start with
  | Some pivot =>
      let left := insertionPoint (S start) workArray pivot 0%nat start in
      take left workArray ++ pivot ::
        take (start - left) (drop left workArray) ++ drop (S start) workArray
  | None => workArray
  end.

(** [BinaryInsertionSort] of [start, start + rounds). *)
Fixpoint BinaryInsertionSort (rounds : nat) (workArray : list Z)
    (start : nat) : list Z :=
  match rounds with
  | O => workArray
  | S rounds' =>
      BinaryInsertionSort rounds' (insertPivot workArray start) (S start)
  end.

Definition binaryInsertion (array : list Z) : list Z :=
  let '(runLength, workArray) := CountAndMakeRun array in
  BinaryInsertionSort (length array - runLength) workArray runLength.

(** *** Insertion sort (V8 before 7.0, arrays of at most 10 elements) *)

(** The sorted prefix is held last element first; elements that compare
    above [element] are shifted past it. *)
Fixpoint shiftIn (element : Z) (sortedRev : list Z) : list Z :=
  match sortedRev with
  | [] => [element]
  | tmp :: rest =>
      let order := comparefn tmp element in
      if 0 <? order then tmp :: shiftIn element rest
      else element :: sortedRev
  end.

Definition insertion (array : list Z) : list Z :=
  rev (fold_left (fun sortedRev element => shiftIn element sortedRev)
         array []).

(** [InnerArraySort] of V8 before 7.0: [if (to - from <= 10)] the insertion
    sort, and otherwise its quicksort, which is left open here. *)
Definition legacy (QuickSort : list Z -> list Z) (array : list Z) : list Z :=
  if decide (length array <= 10)%nat then insertion array
  else QuickSort array.

End Comparator.

End Sort.

(** ** Column rebalancing: [_reLayoutChildren] *)

Module Reflow.

(** A DOM element, by identity. *)
Definition node := nat.

Module DOMRect.
Record t := { top : Z; bottom : Z; height : Z }.
End DOMRect.

(** What the pass reads of an element: its [data-cell] attribute ([None]
    when absent) and its bounding rectangle. *)
Record Element := {
  data_cell : option string;
  rect : DOMRect.t
}.

Definition Document := node -> Element.

(** [{ elm: cellDom, height: cellRect.height }] *)
Record BelowCell := { elm : node; height : Z }.

(** The locals step 1 sets: [columnBottoms] as measured, [minBottom] and
    [minBottomColumnIndex]. *)
Record Shortest := {
  bottomsAtStart : list Z;
  minBottom : Z;
  minBottomColumnIndex : nat
}.

(** The locals step 2 updates: [belowCellIds], [belowCells] and the
    trackers [columnBottoms]. *)
Record Below := {
  belowCellIds : list Z;
  belowCells : gmap Z BelowCell;
  columnBottoms : list Z
}.

(** What step 3 updates: the column containers, the fragments and the
    trackers [columnBottoms], here [bottoms]. *)
Record Arrangement := {
  columnDoms : list (list node);
  columnAppendFragments : list (list node);
  bottoms : list Z
}.

Definition MAX_SAFE_INTEGER : Z := 2 ^ 53 - 1.

(** [function (a, b) { return a > b }], its boolean result converted to a
    Number by the sort. *)
Definition comparefn (a b : Z) : Z := if b <? a then 1 else 0.

(** [Math.min(...array)]: [None] stands for [Infinity]. *)
Definition Math_min (array : list Z) : option Z :=
  match array with
  | [] => None
  | x :: rest => Some (fold_left Z.min rest x)
  end.

(** [array.indexOf(x)]: [None] stands for [-1]. *)
Fixpoint indexOf (array : list Z) (x : Z) : option nat :=
  match array with
  | [] => None
  | y :: rest => if y =? x then Some 0%nat else S <$> indexOf rest x
  end.

(** An element leaves the parent it has. *)
Definition detach (child : node) (children : list node) : list node :=
  filter (fun c => c ≠ child) children.

(** [columnAppendFragments[index].appendChild(cellElm)]: the element is
    moved from wherever it is to the end of the fragment. *)
Definition appendChild (index : nat) (cellElm : node) (a : Arrangement)
  : Arrangement :=
  {| columnDoms := map (detach cellElm) (columnDoms a);
     columnAppendFragments :=
       alter (fun fragment => fragment ++ [cellElm]) index
         (map (detach cellElm) (columnAppendFragments a));
     bottoms := bottoms a |}.

Section Pass.

(** The implementation of [Array.prototype.sort]. *)
Variable Array_sort : (Z -> Z -> Z) -> list Z -> list Z.

Variable document : Document.

Definition getAttribute (cellDom : node) : option string :=
  data_cell (document cellDom).

Definition getBoundingClientRect (element : node) : DOMRect.t :=
  rect (document element).

(** [ToNumber] of what [getAttribute] returns: [null] is 0. *)
Definition ToNumber (attribute : option string) : JS.Number :=
  match attribute with
  | None => JS.Finite 0 0
  | Some s => JS.StringToNumber s
  end.

(** [~~cellDom.getAttribute('data-cell')] *)
Definition cellId (cellDom : node) : Z :=
  JS.bitwiseNOT
    (JS.ToInt32
       (JS.Finite
          (JS.bitwiseNOT (JS.ToInt32 (ToNumber (getAttribute cellDom))))
          0)).

(** *** Step 1: the shortest column bottom *)

(** [lastChild ? lastChild.getBoundingClientRect().bottom : 0] *)
Definition lastBottom (columnDom : list node) : Z :=
  match last columnDom with
  | Some lastChild => DOMRect.bottom (getBoundingClientRect lastChild)
  | None => 0
  end.

Fixpoint findShortest (i : nat) (columns : list (list node))
    (s : Shortest) : Shortest :=
  match columns with
  | [] => s
  | columnDom :: rest =>
      let bottom := lastBottom columnDom in
      findShortest (S i) rest
        {| bottomsAtStart := bottomsAtStart s ++ [bottom];
           minBottom :=
             if bottom <? minBottom s then bottom else minBottom s;
           minBottomColumnIndex :=
             if bottom <? minBottom s then i else minBottomColumnIndex s |}
  end.

Definition shortest (columns : list (list node)) : Shortest :=
  findShortest 0 columns
    {| bottomsAtStart := [];
       minBottom := MAX_SAFE_INTEGER;
       minBottomColumnIndex := 0 |}.

(** *** Step 2: the cells below the shortest bottom *)

(** The body of the inner loop, for the cell [cellDom] of column [i]. *)
Definition scanCell (minBottom : Z) (i : nat) (b : Below) (cellDom : node)
  : Below :=
  let cellRect := getBoundingClientRect cellDom in
  if minBottom <? DOMRect.top cellRect then
    let id := cellId cellDom in
    {| belowCellIds := belowCellIds b ++ [id];
       belowCells :=
         <[id := {| elm := cellDom; height := DOMRect.height cellRect |}]>
           (belowCells b);
       columnBottoms :=
         alter (fun bottom => bottom - DOMRect.height cellRect) i
           (columnBottoms b) |}
  else b.

(** The inner loop: [j] runs from the last cell of the column down. *)
Definition scanColumn (minBottom : Z) (i : nat) (b : Below)
    (cellsInColumn : list node) : Below :=
  fold_left (scanCell minBottom i) (rev cellsInColumn) b.

(** The outer loop, from column [i] on. *)
Fixpoint scanColumns (minBottom : Z) (minBottomColumnIndex : nat) (i : nat)
    (columns : list (list node)) (b : Below) : Below :=
  match columns with
  | [] => b
  | columnDom :: rest =>
      if decide (i = minBottomColumnIndex)
      then scanColumns minBottom minBottomColumnIndex (S i) rest b
      else scanColumns minBottom minBottomColumnIndex (S i) rest
             (scanColumn minBottom i b columnDom)
  end.

Definition below (columns : list (list node)) : Below :=
  let s := shortest columns in
  scanColumns (minBottom s) (minBottomColumnIndex s) 0 columns
    {| belowCellIds := []; belowCells := ∅;
       columnBottoms := bottomsAtStart s |}.

(** *** Step 3: every cell below goes to the column shortest by then *)

(** [belowCellIds.sort(function (a, b) { return a > b })] *)
Definition sortedIds (columns : list (list node)) : list Z :=
  Array_sort comparefn (belowCellIds (below columns)).

(** No fragment at index [-1], and no field of [undefined]: both throw. *)
Definition addToShortestColumn (a : Arrangement)
    (belowCell : option BelowCell) : option Arrangement :=
  match Math_min (bottoms a) with
  | None => None
  | Some minBottom =>
      match belowCell, indexOf (bottoms a) minBottom with
      | Some {| elm := cellElm; height := cellHeight |},
        Some minBottomColumnIndex =>
          let a := appendChild minBottomColumnIndex cellElm a in
          Some {| columnDoms := columnDoms a;
                  columnAppendFragments := columnAppendFragments a;
                  bottoms :=
                    alter (fun bottom => bottom + cellHeight)
                      minBottomColumnIndex (bottoms a) |}
      | _, _ => None
      end
  end.

(** [for (i < cellIdsLen) addToShortestColumn(belowCells[belowCellIds[i]])] *)
Fixpoint arrange (belowCells : gmap Z BelowCell) (ids : list Z)
    (a : Arrangement) : option Arrangement :=
  match ids with
  | [] => Some a
  | id :: rest =>
      match addToShortestColumn a (belowCells !! id) with
      | Some a' => arrange belowCells rest a'
      | None => None
      end
  end.

Definition arranged (columns : list (list node)) : option Arrangement :=
  let b := below columns in
  arrange (belowCells b) (sortedIds columns)
    {| columnDoms := columns;
       columnAppendFragments := map (fun _ => []) columns;
       bottoms := columnBottoms b |}.

(** [columnDoms[i].appendChild(columnAppendFragments[i])], for every [i]. *)
Definition appendFragments (a : Arrangement) : list (list node) :=
  zip_with app (columnDoms a) (columnAppendFragments a).

(** The pass.  [columns] are the containers [this._columns[i].elm] for
    [i] below [this._columnCount]; the result is what they hold once the
    fragments are appended, or [None] if the pass throws. *)
Definition _reLayoutChildren (columns : list (list node))
  : option (list (list node)) :=
  appendFragments <$> arranged columns.

End Pass.

End Reflow.

(** ** Vocabulary of the properties *)

Module Spec.

Import Reflow.

(** An implementation of [sort] rearranges the array it is given, whatever
    the comparator. *)
Definition Rearranges (Array_sort : (Z -> Z -> Z) -> list Z -> list Z)
  : Prop :=
  forall comparefn array, Array_sort comparefn array ≡ₚ array.

(** The elements step 3 appends to a fragment, in the order of the loop. *)
Definition placed (belowCells : gmap Z BelowCell) (ids : list Z)
  : list node :=
  omap (fun id => elm <$> belowCells !! id) ids.

Section Candidates.

Variable document : Document.

(** What step 2 records of a candidate. *)
Definition record (cellDom : node) : BelowCell :=
  {| elm := cellDom;
     height := DOMRect.height (getBoundingClientRect document cellDom) |}.

(** The body of the inner loop when the cell is a candidate. *)
Definition collect (i : nat) (b : Below) (cellDom : node) : Below :=
  {| belowCellIds := belowCellIds b ++ [cellId document cellDom];
     belowCells := <[cellId document cellDom := record cellDom]> (belowCells b);
     columnBottoms :=
       alter
         (fun bottom =>
            bottom - DOMRect.height (getBoundingClientRect document cellDom))
         i (columnBottoms b) |}.

(** The cells of a column whose top edge is strictly greater than
    [minBottom], last cell first. *)
Definition candidatesOf (minBottom : Z) (columnDom : list node)
  : list node :=
  filter
    (fun cellDom =>
       minBottom < DOMRect.top (getBoundingClientRect document cellDom))
    (rev columnDom).

(** The candidates of column [i]: none in the shortest column. *)
Definition candidatesAt (minBottom : Z) (minBottomColumnIndex i : nat)
    (columnDom : list node) : list node :=
  if decide (i = minBottomColumnIndex) then []
  else candidatesOf minBottom columnDom.

(** The candidates of the columns from [i] on, in the order of the scan. *)
Fixpoint candidatesFrom (minBottom : Z) (minBottomColumnIndex i : nat)
    (columns : list (list node)) : list node :=
  match columns with
  | [] => []
  | columnDom :: rest =>
      candidatesAt minBottom minBottomColumnIndex i columnDom ++
      candidatesFrom minBottom minBottomColumnIndex (S i) rest
  end.

Definition candidates (columns : list (list node)) : list node :=
  let s := shortest document columns in
  candidatesFrom (minBottom s) (minBottomColumnIndex s) 0 columns.

(** The candidates of column [i] of a pass over [columns]. *)
Definition candidatesIn (columns : list (list node)) (i : nat)
    (columnDom : list node) : list node :=
  let s := shortest document columns in
  candidatesAt (minBottom s) (minBottomColumnIndex s) i columnDom.

(** A tracker after [columnBottoms[i] -= cellRect.height] has run for
    each of the cells, one subtraction after the other in the order of the
    list. *)
Definition lowered (bottom : Z) (cells : list node) : Z :=
  fold_left
    (fun bottom cellDom =>
       bottom - DOMRect.height (getBoundingClientRect document cellDom))
    cells bottom.

(** The last cell of the scan that has the identifier. *)
Definition lastWithId (id : Z) (scanned : list node) : option node :=
  last (filter (fun cellDom => cellId document cellDom = id) scanned).

(** No cell of a column other than the shortest one has its top edge
    strictly greater than the shortest bottom. *)
Definition Balanced (columns : list (list node)) : Prop :=
  let s := shortest document columns in
  forall i columnDom cellDom,
    columns !! i = Some columnDom ->
    i ≠ minBottomColumnIndex s ->
    cellDom ∈ columnDom ->
    DOMRect.top (getBoundingClientRect document cellDom) <= minBottom s.

End Candidates.

End Spec.

(** ** Concrete layouts *)

(** Three columns with bottoms 100, 50 and 80: cells 5 and 6 (tops 60 and
    90, heights 20 and 30) end column 0 and cell 7 (top 70, height 10) ends
    column 2; every cell is named by its identifier. *)
Module Scenario.

Import Reflow.

Definition element (id : string) (top bottom height : Z) : Element :=
  {| data_cell := Some id;
     rect := {| DOMRect.top := top; DOMRect.bottom := bottom;
                DOMRect.height := height |} |}.

Definition document : Document :=
  fun cellDom =>
    match cellDom with
    | 1%nat => element "1" 0 50 50
    | 2%nat => element "2" 0 50 50
    | 3%nat => element "3" 0 70 70
    | 5%nat => element "5" 60 80 20
    | 6%nat => element "6" 90 100 30
    | 7%nat => element "7" 70 80 10
    | _ => element "0" 0 0 0
    end.

Definition columns : list (list node) := [[1; 5; 6]; [2]; [3; 7]]%nat.

(** The trackers once the candidates are taken off, nothing placed yet. *)
Definition start : Arrangement :=
  {| columnDoms := columns;
     columnAppendFragments := [[]; []; []];
     bottoms := [50; 50; 70] |}.

End Scenario.

(** Two columns; cells 3 and 4 of column 1 lie below the bottom of column 0
    and neither has a numeric [data-cell]: 3 has none, 4 has ["x"]. *)
Module Collision.

Import Reflow.

Definition document : Document :=
  fun cellDom =>
    match cellDom with
    | 1%nat => Scenario.element "1" 0 50 50
    | 2%nat => Scenario.element "2" 0 60 60
    | 3%nat =>
        {| data_cell := None;
           rect := {| DOMRect.top := 60; DOMRect.bottom := 80;
                      DOMRect.height := 20 |} |}
    | 4%nat => Scenario.element "x" 80 110 30
    | _ => Scenario.element "0" 0 0 0
    end.

Definition columns : list (list node) := [[1]; [2; 3; 4]]%nat.

End Collision.

(** A component instance before its first render, a text node and a cell. *)
Module Attributes.

Import Reflow.

(** The attribute value ['\u00a05']: a no-break space before the digit. *)
Definition padded : string :=
  String (ascii_of_nat 194) (String (ascii_of_nat 160) "5").

(** The same digit after an ideographic space and before a byte order
    mark. *)
Definition wide : string :=
  String (ascii_of_nat 227)
    (String (ascii_of_nat 128)
       (String (ascii_of_nat 128)
          (String "5"
             (String (ascii_of_nat 239)
                (String (ascii_of_nat 187)
                   (String (ascii_of_nat 191) EmptyString)))))).

Definition document : Document :=
  fun cellDom =>
    match cellDom with
    | 0%nat => Scenario.element padded 0 0 0
    | _ => Scenario.element wide 0 0 0
    end.

End Attributes.

Module Slots.

Import Children.

Definition fresh : Waterfall :=
  {| _headers := []; _others := []; _footers := []; _cells := [];
     _refresh := None; _loading := None; _listCells := [] |}.

Definition text : VNode :=
  {| tag := None; componentOptions := None; data := {| attrs := None |} |}.

Definition cell : VNode :=
  {| tag := Some "vue-component-1-cell";
     componentOptions := Some {| ctag := Some "cell" |};
     data := {| attrs := None |} |}.

(** A refresh indicator, told from another by the tag of its node. *)
Definition refresh (name : string) : VNode :=
  {| tag := Some name;
     componentOptions := Some {| ctag := Some "refresh" |};
     data := {| attrs := None |} |}.

End Slots.


(** ** Sticky headers: [handleListScroll] *)

Module Scroll.

(** A child component, as the handler reads it: whether [vm.$refs.header]
    is set, [vm.$attrs] ([None] when undefined) and [vm.initTop]. *)
Record Child := {
  header : bool;
  attrs : option (gmap string Props.Value);
  initTop : Z
}.

(** The calls the handler makes, a child being named by its index in
    [this.$children]. *)
Inductive Call :=
  | handleScroll
  | addSticky (child : nat)
  | removeSticky (child : nat).

Global Instance Call_eq_dec : EqDecision Call.
Proof. solve_decision. Defined.

(** [vm.$refs.header && vm.$attrs && vm.$attrs['data-sticky']], as the
    filter reads it. *)
Definition sticky (vm : Child) : bool :=
  header vm &&
  match attrs vm with
  | Some a =>
      match a !! "data-sticky" with
      | Some value => negb (Props.falsy value)
      | None => false
      end
  | None => false
  end.

(** [this.$children.filter(...)], every child with its index. *)
Definition stickyHeaders (children : list Child) : list (nat * Child) :=
  filter (fun vm => sticky vm.2 = true) (imap pair children).

(** The loop over [h]. *)
Fixpoint updateSticky (scrollTop : Z) (h : list (nat * Child)) : list Call :=
  match h with
  | [] => []
  | (i, vm) :: rest =>
      (if initTop vm <? scrollTop then addSticky i else removeSticky i)
      :: updateSticky scrollTop rest
  end.

(** [supportSticky] is what [weex.utils.supportSticky()] returns and
    [scrollTop] is [this.$el.scrollTop]; the result is the calls made, in
    order. *)
Definition handleListScroll (supportSticky : bool) (scrollTop : Z)
    (children : list Child) : list Call :=
  handleScroll ::
  if supportSticky then []
  else
    let h := stickyHeaders children in
    if (length h <=? 0)%nat then []
    else updateSticky scrollTop h.

End Scroll.

(** ** [render] *)

Module Render.

Import Children.

(** The calls [render] makes besides [createElement] and
    [_createChildren], in order; the callback given to [$nextTick] is not
    run by [render].  [createEventMap] is called with the handlers of the
    component, each a method named under its event, while the data of the
    [main] element is built: after [extractComponentStyle] and before
    [_createChildren]. *)
Inductive Call :=
  | nextTick
  | _renderHook
  | extractComponentStyle
  | createEventMap (extras : list (string * string)).




End Render.

(** * Facts *)

(** ** Facts about the sorts *)

Section SortFacts.

Variable comparefn : Z -> Z -> Z.

Lemma insertionPoint_bounds fuel workArray pivot left right :
  (left <= right)%nat ->
  (left <= Sort.insertionPoint comparefn fuel workArray pivot left right
     <= right)%nat.
Proof.
  revert left right.
  induction fuel as [|fuel IH]; intros left right Hle;
    cbn [Sort.insertionPoint]; [lia|].
  destruct (Nat.ltb_spec left right) as [Hlt|]; [|lia].
  assert (Hmid : (left <= left + (right - left) / 2 < right)%nat).
  { split; [lia|].
    assert ((right - left) / 2 < right - left)%nat by (apply Nat.div_lt; lia).
    lia. }
  destruct (workArray !! _); [|lia].
  destruct (_ <? 0).
  - specialize (IH left (left + (right - left) / 2)%nat). lia.
  - specialize (IH (left + (right - left) / 2 + 1)%nat right). lia.
Qed.

(** The search is over before the fuel is. *)
Lemma insertionPoint_fuel fuel workArray pivot left right :
  (right - left < fuel)%nat ->
  Sort.insertionPoint comparefn fuel workArray pivot left right =
  Sort.insertionPoint comparefn (S fuel) workArray pivot left right.
Proof.
  revert left right.
  induction fuel as [|fuel IH]; intros left right Hfuel; [lia|].
  cbn [Sort.insertionPoint].
  destruct (Nat.ltb_spec left right) as [Hlt|]; [|done].
  assert (Hmid : ((right - left) / 2 < right - left)%nat)
    by (apply Nat.div_lt; lia).
  destruct (workArray !! _); [|done].
  destruct (_ <? 0).
  - rewrite IH by lia. done.
  - rewrite IH by lia. done.
Qed.

Lemma insertPivot_Permutation workArray start :
  Sort.insertPivot comparefn workArray start ≡ₚ workArray.
Proof.
  unfold Sort.insertPivot.
  destruct (workArray !! start) as [pivot|] eqn:Hpivot; [|done].
  pose proof (insertionPoint_bounds (S start) workArray pivot 0 start
                ltac:(lia)) as [_ Hle].
  set (left := Sort.insertionPoint _ _ _ _ _ _) in *.
  rewrite <-(take_drop left workArray) at 4.
  apply Permutation_app_head.
  rewrite <-(take_drop (start - left) (drop left workArray)) at 2.
  rewrite drop_drop.
  replace (left + (start - left))%nat with start by lia.
  rewrite (drop_S _ _ _ Hpivot).
  apply Permutation_middle.
Qed.

Lemma BinaryInsertionSort_Permutation rounds workArray start :
  Sort.BinaryInsertionSort comparefn rounds workArray start ≡ₚ workArray.
Proof.
  revert workArray start.
  induction rounds as [|rounds IH]; intros workArray start; simpl; [done|].
  by rewrite IH, insertPivot_Permutation.
Qed.

Lemma CountAndMakeRun_Permutation array :
  (Sort.CountAndMakeRun comparefn array).2 ≡ₚ array.
Proof.
  destruct array as [|x [|y rest]]; [done..|].
  unfold Sort.CountAndMakeRun.
  destruct (_ <? 0); [|done].
  cbn [snd].
  by rewrite <-Permutation_rev, take_drop.
Qed.

Lemma binaryInsertion_Permutation array :
  Sort.binaryInsertion comparefn array ≡ₚ array.
Proof.
  unfold Sort.binaryInsertion.
  pose proof (CountAndMakeRun_Permutation array) as Hrun.
  destruct (Sort.CountAndMakeRun comparefn array) as [runLength workArray].
  by rewrite BinaryInsertionSort_Permutation.
Qed.

Lemma shiftIn_Permutation element sortedRev :
  Sort.shiftIn comparefn element sortedRev ≡ₚ element :: sortedRev.
Proof.
  induction sortedRev as [|tmp rest IH]; simpl; [done|].
  destruct (0 <? _); [|done].
  rewrite IH. apply perm_swap.
Qed.

Lemma insertion_Permutation array :
  Sort.insertion comparefn array ≡ₚ array.
Proof.
  unfold Sort.insertion.
  rewrite <-Permutation_rev.
  assert (H : forall acc,
    fold_left (fun sortedRev element => Sort.shiftIn comparefn element sortedRev)
      array acc ≡ₚ array ++ acc).
  { induction array as [|x array IH]; intros acc; simpl; [done|].
    rewrite IH, shiftIn_Permutation. by rewrite Permutation_middle. }
  by rewrite H, app_nil_r.
Qed.

End SortFacts.

(** The comparator of the pass never returns a negative number. *)
Lemma comparefn_nonneg a b : (Reflow.comparefn a b <? 0) = false.
Proof. unfold Reflow.comparefn. by destruct (b <? a). Qed.

Lemma continueRun_comparefn previousElement rest :
  Sort.continueRun Reflow.comparefn false previousElement rest = length rest.
Proof.
  revert previousElement.
  induction rest as [|x rest IH]; intros previousElement; simpl; [done|].
  by rewrite comparefn_nonneg, IH.
Qed.

Lemma binaryInsertion_comparefn array :
  Sort.binaryInsertion Reflow.comparefn array = array.
Proof.
  unfold Sort.binaryInsertion.
  destruct array as [|x [|y rest]]; [done..|].
  unfold Sort.CountAndMakeRun.
  rewrite comparefn_nonneg, continueRun_comparefn.
  cbn [length]. by rewrite Nat.sub_diag.
Qed.

Lemma shiftIn_comparefn_sorted element sortedRev :
  StronglySorted (flip Z.le) sortedRev ->
  StronglySorted (flip Z.le)
    (Sort.shiftIn Reflow.comparefn element sortedRev).
Proof.
  induction 1 as [|tmp rest Hrest IH Htmp]; simpl.
  { repeat constructor. }
  unfold Reflow.comparefn at 1.
  destruct (Z.ltb_spec element tmp) as [Hlt|Hge]; simpl.
  - constructor; [done|].
    eapply Forall_forall. intros x Hx.
    rewrite shiftIn_Permutation in Hx.
    apply elem_of_cons in Hx as [->|Hx]; unfold flip; [lia|].
    by eapply Forall_forall in Htmp.
  - constructor; [by constructor|].
    constructor; [done|].
    eapply Forall_impl; [exact Htmp|]. unfold flip. intros; lia.
Qed.

Lemma insertion_comparefn_sorted array :
  StronglySorted Z.le (Sort.insertion Reflow.comparefn array).
Proof.
  unfold Sort.insertion.
  assert (Hrev : forall l : list Z,
    StronglySorted (flip Z.le) l -> StronglySorted Z.le (rev l)).
  { induction 1 as [|x l Hl IH Hx]; simpl; [constructor|].
    apply StronglySorted_app_2; [|done|repeat constructor].
    intros x1 x2 Hx1 ->%list_elem_of_singleton.
    apply list_elem_of_In, in_rev, list_elem_of_In in Hx1.
    by eapply Forall_forall in Hx. }
  apply Hrev.
  assert (Hfold : forall acc, StronglySorted (flip Z.le) acc ->
    StronglySorted (flip Z.le)
      (fold_left (fun sortedRev element =>
                    Sort.shiftIn Reflow.comparefn element sortedRev)
         array acc)).
  { induction array as [|x array IH]; intros acc Hacc; simpl; [done|].
    by apply IH, shiftIn_comparefn_sorted. }
  apply Hfold. constructor.
Qed.

(** ** Facts about the pass *)

Import Reflow Spec.

(** *** The identifier *)

Lemma wrap32_range z : - 2 ^ 31 <= JS.wrap32 z < 2 ^ 31.
Proof.
  unfold JS.wrap32.
  pose proof (Z.mod_pos_bound z (2 ^ 32) ltac:(lia)).
  destruct (Z.leb_spec (2 ^ 31) (z mod 2 ^ 32)); lia.
Qed.

Lemma wrap32_id z : - 2 ^ 31 <= z < 2 ^ 31 -> JS.wrap32 z = z.
Proof.
  intros Hz. unfold JS.wrap32.
  destruct (Z.leb_spec (2 ^ 31) (z mod 2 ^ 32)) as [Hhigh|Hlow].
  - destruct (Z.le_gt_cases 0 z).
    + rewrite Z.mod_small in Hhigh by lia. lia.
    + replace z with (z + 2 ^ 32 - 1 * 2 ^ 32) by lia.
      rewrite Zminus_mod, Z_mod_mult, Z.sub_0_r, Z.mod_mod by lia.
      rewrite Z.mod_small by lia. lia.
  - destruct (Z.le_gt_cases 0 z).
    + rewrite Z.mod_small by lia. done.
    + replace z with (z + 2 ^ 32 - 1 * 2 ^ 32) in Hlow at 1 by lia.
      rewrite Zminus_mod, Z_mod_mult, Z.sub_0_r, Z.mod_mod in Hlow by lia.
      rewrite Z.mod_small in Hlow by lia. lia.
Qed.

Lemma ToInt32_range x : - 2 ^ 31 <= JS.ToInt32 x < 2 ^ 31.
Proof. destruct x; simpl; try lia. apply wrap32_range. Qed.

Lemma doubleNOT z :
  - 2 ^ 31 <= z < 2 ^ 31 ->
  JS.bitwiseNOT (JS.ToInt32 (JS.Finite (JS.bitwiseNOT z) 0)) = z.
Proof.
  intros Hz. unfold JS.bitwiseNOT, JS.ToInt32, JS.truncate. simpl.
  rewrite Z.mul_1_r, wrap32_id by (unfold Z.lnot; lia).
  apply Z.lnot_involutive.
Qed.

(** *** Trackers and fragments: the loop of step 3 *)

Lemma Math_min_elem array m : Math_min array = Some m -> m ∈ array.
Proof.
  destruct array as [|x rest]; [done|]. simpl. intros [= <-].
  revert x. induction rest as [|y rest IH]; intros x; simpl.
  - apply list_elem_of_here.
  - specialize (IH (Z.min x y)).
    apply elem_of_cons in IH as [Hmin|Hrest].
    + rewrite Hmin. destruct (Z.min_spec x y) as [[_ ->]|[_ ->]].
      * apply list_elem_of_here.
      * apply list_elem_of_further, list_elem_of_here.
    + by do 2 apply list_elem_of_further.
Qed.

Lemma indexOf_elem array x :
  x ∈ array ->
  exists k, indexOf array x = Some k /\ (k < length array)%nat.
Proof.
  induction array as [|y rest IH]; [by intros ?%elem_of_nil|].
  intros Hx. simpl. destruct (Z.eqb_spec y x) as [->|Hne].
  - exists 0%nat. split; [done|lia].
  - apply elem_of_cons in Hx as [->|Hx]; [done|].
    destruct (IH Hx) as (k & -> & Hk). exists (S k). split; [done|lia].
Qed.

Lemma elem_of_concat (x : node) (ls : list (list node)) :
  x ∈ concat ls <-> exists l, l ∈ ls /\ x ∈ l.
Proof.
  rewrite list_elem_of_In, in_concat.
  split; intros (l & Hl & Hx); exists l; by rewrite ?list_elem_of_In in *.
Qed.

Lemma concat_detach child (ls : list (list node)) :
  concat (map (detach child) ls) = detach child (concat ls).
Proof.
  induction ls as [|l ls IH]; simpl; [done|].
  unfold detach in *. by rewrite filter_app, IH.
Qed.

Lemma concat_alter_snoc (x : node) k (ls : list (list node)) :
  (k < length ls)%nat ->
  concat (alter (fun l => l ++ [x]) k ls) ≡ₚ x :: concat ls.
Proof.
  revert k. induction ls as [|l ls IH]; intros k Hk; simpl in Hk; [lia|].
  destruct k as [|k].
  - change (((l ++ [x]) ++ concat ls) ≡ₚ x :: l ++ concat ls).
    rewrite <-app_assoc. simpl. by rewrite <-Permutation_middle.
  - change ((l ++ concat (alter (fun l => l ++ [x]) k ls)) ≡ₚ
            x :: l ++ concat ls).
    rewrite IH by lia. by rewrite <-Permutation_middle.
Qed.

Lemma appendChild_fragments k cellElm a :
  (k < length (columnAppendFragments a))%nat ->
  concat (columnAppendFragments (appendChild k cellElm a)) ≡ₚ
  cellElm :: detach cellElm (concat (columnAppendFragments a)).
Proof.
  intros Hk. unfold appendChild. simpl.
  rewrite concat_alter_snoc by (by rewrite length_map).
  by rewrite concat_detach.
Qed.

Lemma addToShortestColumn_Some a cell :
  bottoms a ≠ [] ->
  exists k,
    (k < length (bottoms a))%nat /\
    addToShortestColumn a (Some cell) =
    Some {| columnDoms := map (detach (elm cell)) (columnDoms a);
            columnAppendFragments :=
              alter (fun fragment => fragment ++ [elm cell]) k
                (map (detach (elm cell)) (columnAppendFragments a));
            bottoms :=
              alter (fun bottom => bottom + height cell) k (bottoms a) |}.
Proof.
  intros Hne. unfold addToShortestColumn.
  destruct (Math_min (bottoms a)) as [m|] eqn:Hmin.
  - destruct (indexOf_elem _ _ (Math_min_elem _ _ Hmin)) as (k & -> & Hk).
    exists k. split; [done|]. by destruct cell.
  - by destruct (bottoms a).
Qed.

Lemma arrange_spec cells ids a :
  (forall id, id ∈ ids -> is_Some (cells !! id)) ->
  length (columnAppendFragments a) = length (bottoms a) ->
  (ids ≠ [] -> bottoms a ≠ []) ->
  exists a',
    arrange cells ids a = Some a' /\
    columnDoms a' =
      map (filter (fun c => c ∉ placed cells ids)) (columnDoms a) /\
    length (columnAppendFragments a') = length (columnAppendFragments a) /\
    length (bottoms a') = length (bottoms a) /\
    (forall x, x ∈ concat (columnAppendFragments a') <->
               x ∈ concat (columnAppendFragments a) \/ x ∈ placed cells ids) /\
    (NoDup (concat (columnAppendFragments a)) ->
     NoDup (concat (columnAppendFragments a'))).
Proof.
  revert a. induction ids as [|id rest IH]; intros a Hcells Hlen Hne.
  { exists a. simpl. repeat split; try done.
    - rewrite <-(map_id (columnDoms a)) at 1. apply map_ext. intros l.
      induction l as [|x l IHl]; [done|].
      rewrite filter_cons, decide_True by apply not_elem_of_nil.
      by rewrite <-IHl.
    - by left.
    - by intros [?|?%elem_of_nil]. }
  destruct (Hcells id) as [cell Hcell]; [apply list_elem_of_here|].
  destruct (addToShortestColumn_Some a cell) as (k & Hk & Hadd).
  { apply Hne. done. }
  assert (Hplaced : placed cells (id :: rest) = elm cell :: placed cells rest).
  { unfold placed. simpl. by rewrite Hcell. }
  rewrite Hplaced. cbn [arrange]. rewrite Hcell, Hadd.
  set (a1 := {| columnDoms := _ |}).
  destruct (IH a1) as (a' & Harr & Hdoms & Hlenf & Hlenb & Helem & Hnodup).
  { intros id' Hid'. apply Hcells. by apply list_elem_of_further. }
  { simpl. by rewrite !length_alter, length_map. }
  { intros _. simpl. intros Hnil. apply (f_equal length) in Hnil.
    rewrite length_alter in Hnil. simpl in Hnil. lia. }
  assert (Hperm : concat (columnAppendFragments a1) ≡ₚ
            elm cell :: detach (elm cell) (concat (columnAppendFragments a))).
  { apply (appendChild_fragments k (elm cell) a). lia. }
  exists a'. repeat split.
  - done.
  - rewrite Hdoms. simpl. rewrite map_map. apply map_ext. intros l.
    unfold detach. rewrite list_filter_filter. apply list_filter_iff.
    intros x. rewrite not_elem_of_cons. tauto.
  - rewrite Hlenf. simpl. by rewrite length_alter, length_map.
  - rewrite Hlenb. simpl. by rewrite length_alter.
  - rewrite Helem, Hperm. rewrite !elem_of_cons.
    unfold detach. rewrite list_elem_of_filter. tauto.
  - rewrite Helem, Hperm. rewrite !elem_of_cons.
    unfold detach. rewrite list_elem_of_filter.
    destruct (decide (x = elm cell)); tauto.
  - intros Hnd. apply Hnodup. rewrite Hperm. constructor.
    + unfold detach. rewrite list_elem_of_filter. tauto.
    + by apply NoDup_filter.
Qed.

Lemma concat_empty (columns : list (list node)) :
  concat (map (fun _ => []) columns) = @nil node.
Proof. by induction columns. Qed.

Lemma concat_zip_app (doms fragments : list (list node)) :
  length doms = length fragments ->
  concat (zip_with app doms fragments) ≡ₚ concat doms ++ concat fragments.
Proof.
  revert fragments.
  induction doms as [|d doms IH]; intros [|f fragments] Hlen;
    simpl in *; try done; try lia.
  rewrite IH by lia.
  rewrite <-!app_assoc. apply Permutation_app_head.
  rewrite !app_assoc. apply Permutation_app_tail, Permutation_app_comm.
Qed.

Lemma concat_filter (P : node -> Prop) `{forall x, Decision (P x)}
    (columns : list (list node)) :
  concat (map (filter P) columns) = filter P (concat columns).
Proof.
  induction columns as [|c columns IH]; simpl; [done|].
  by rewrite filter_app, IH.
Qed.

(** The cells of the columns are those left in place and those placed. *)
Lemma conservation columns a (moved : list node) :
  NoDup (concat columns) ->
  (forall x, x ∈ moved -> x ∈ concat columns) ->
  columnDoms a = map (filter (fun c => c ∉ moved)) columns ->
  length (columnAppendFragments a) = length columns ->
  (forall x, x ∈ concat (columnAppendFragments a) <-> x ∈ moved) ->
  NoDup (concat (columnAppendFragments a)) ->
  concat (appendFragments a) ≡ₚ concat columns.
Proof.
  intros Hnd Hsub Hdoms Hlen Helem Hfrag.
  unfold appendFragments.
  rewrite concat_zip_app by (by rewrite Hdoms, length_map).
  rewrite Hdoms, concat_filter.
  apply NoDup_Permutation; [|done|].
  - apply NoDup_app. split; [by apply NoDup_filter|]. split; [|done].
    intros x Hx%list_elem_of_filter Hx'%Helem. tauto.
  - intros x. rewrite elem_of_app, list_elem_of_filter, Helem.
    split.
    + intros [[_ Hx]|Hx]; [done|by apply Hsub].
    + intros Hx. destruct (decide (x ∈ moved)); tauto.
Qed.

Lemma NoDup_concat_lookup (ls : list (list node)) i j a b x :
  NoDup (concat ls) ->
  ls !! i = Some a -> ls !! j = Some b -> x ∈ a -> x ∈ b -> i = j.
Proof.
  revert i j. induction ls as [|l ls IH]; intros i j; [done|].
  simpl. intros (_ & Hdisj & Hnd)%NoDup_app Hi Hj Ha Hb.
  destruct i as [|i], j as [|j]; simpl in *; simplify_eq; try done.
  - destruct (Hdisj x Ha). apply elem_of_concat. exists b.
    split; [by eapply list_elem_of_lookup_2|done].
  - destruct (Hdisj x Hb). apply elem_of_concat. exists a.
    split; [by eapply list_elem_of_lookup_2|done].
  - f_equal. by eapply IH.
Qed.

Lemma zip_app_empty (columns : list (list node)) :
  zip_with app columns (map (fun _ => []) columns) = columns.
Proof.
  induction columns as [|c columns IH]; simpl; [done|].
  by rewrite app_nil_r, IH.
Qed.

Section ReflowFacts.

Variable document : Document.

Local Abbreviation cellId := (cellId document).
Local Abbreviation record := (record document).
Local Abbreviation lowered := (lowered document).
Local Abbreviation rectOf := (getBoundingClientRect document).
Local Abbreviation collect := (collect document).

Lemma cellId_ToInt32 cellDom :
  cellId cellDom = JS.ToInt32 (ToNumber (getAttribute document cellDom)).
Proof. apply doubleNOT, ToInt32_range. Qed.

(** *** Step 1: the bottoms measured *)

Lemma findShortest_bottoms i columns s :
  bottomsAtStart (findShortest document i columns s) =
  bottomsAtStart s ++ map (lastBottom document) columns.
Proof.
  revert i s.
  induction columns as [|columnDom rest IH]; intros i s; simpl.
  - by rewrite app_nil_r.
  - rewrite IH. simpl. by rewrite <-app_assoc.
Qed.

Lemma shortest_bottoms columns :
  bottomsAtStart (shortest document columns) =
  map (lastBottom document) columns.
Proof. apply findShortest_bottoms. Qed.

(** *** Step 2: the scan *)

Lemma scanCell_below minBottom i b cellDom :
  minBottom < DOMRect.top (rectOf cellDom) ->
  scanCell document minBottom i b cellDom = collect i b cellDom.
Proof.
  intros Htop. unfold scanCell.
  by destruct (Z.ltb_spec minBottom (DOMRect.top (rectOf cellDom))); [|lia].
Qed.

Lemma scanCell_above minBottom i b cellDom :
  DOMRect.top (rectOf cellDom) <= minBottom ->
  scanCell document minBottom i b cellDom = b.
Proof.
  intros Htop. unfold scanCell.
  by destruct (Z.ltb_spec minBottom (DOMRect.top (rectOf cellDom))); [lia|].
Qed.

Lemma scanColumn_collect minBottom i b columnDom :
  scanColumn document minBottom i b columnDom =
  fold_left (collect i) (candidatesOf document minBottom columnDom) b.
Proof.
  unfold scanColumn, candidatesOf.
  generalize (rev columnDom) as cells. intros cells. revert b.
  induction cells as [|cellDom cells IH]; intros b; [done|].
  rewrite filter_cons. simpl. case_decide.
  - by rewrite scanCell_below, IH.
  - by rewrite scanCell_above, IH by lia.
Qed.

Lemma collect_ids i cells b :
  belowCellIds (fold_left (collect i) cells b) =
  belowCellIds b ++ map cellId cells.
Proof.
  revert b. induction cells as [|cellDom cells IH]; intros b; simpl.
  - by rewrite app_nil_r.
  - rewrite IH. simpl. by rewrite <-app_assoc.
Qed.

Lemma collect_cells i cells b :
  belowCells (fold_left (collect i) cells b) =
  fold_left (fun m cellDom => <[cellId cellDom := record cellDom]> m)
    cells (belowCells b).
Proof.
  revert b. induction cells as [|cellDom cells IH]; intros b; simpl; [done|].
  by rewrite IH.
Qed.

Lemma collect_bottoms i cells b j :
  columnBottoms (fold_left (collect i) cells b) !! j =
  if decide (i = j)
  then (fun bottom => lowered bottom cells) <$> columnBottoms b !! j
  else columnBottoms b !! j.
Proof.
  revert b. induction cells as [|cellDom cells IH]; intros b; simpl.
  - case_decide; [|done]. by destruct (columnBottoms b !! j).
  - rewrite IH. simpl. case_decide as Hij.
    + subst j. rewrite list_lookup_alter_eq.
      by destruct (columnBottoms b !! i).
    + by rewrite list_lookup_alter_ne.
Qed.

Lemma collect_length i cells b :
  length (columnBottoms (fold_left (collect i) cells b)) =
  length (columnBottoms b).
Proof.
  revert b. induction cells as [|cellDom cells IH]; intros b; simpl; [done|].
  rewrite IH. simpl. apply length_alter.
Qed.

Lemma scanColumns_ids minBottom minIndex i columns b :
  belowCellIds (scanColumns document minBottom minIndex i columns b) =
  belowCellIds b ++
  map cellId (candidatesFrom document minBottom minIndex i columns).
Proof.
  revert i b.
  induction columns as [|columnDom rest IH]; intros i b; simpl.
  - by rewrite app_nil_r.
  - unfold candidatesAt. case_decide; rewrite IH; [done|].
    by rewrite scanColumn_collect, collect_ids, map_app, app_assoc.
Qed.

Lemma scanColumns_cells minBottom minIndex i columns b :
  belowCells (scanColumns document minBottom minIndex i columns b) =
  fold_left (fun m cellDom => <[cellId cellDom := record cellDom]> m)
    (candidatesFrom document minBottom minIndex i columns) (belowCells b).
Proof.
  revert i b.
  induction columns as [|columnDom rest IH]; intros i b; simpl; [done|].
  unfold candidatesAt. case_decide; rewrite IH; [done|].
  by rewrite scanColumn_collect, collect_cells, fold_left_app.
Qed.

Lemma scanColumns_length minBottom minIndex i columns b :
  length (columnBottoms (scanColumns document minBottom minIndex i columns b))
  = length (columnBottoms b).
Proof.
  revert i b.
  induction columns as [|columnDom rest IH]; intros i b; simpl; [done|].
  case_decide; rewrite IH; [done|].
  by rewrite scanColumn_collect, collect_length.
Qed.

Lemma scanColumns_bottoms minBottom minIndex i columns b j :
  columnBottoms (scanColumns document minBottom minIndex i columns b) !! j =
  if decide (i <= j)%nat then
    match columns !! (j - i)%nat with
    | Some columnDom =>
        (fun bottom =>
           lowered bottom
             (candidatesAt document minBottom minIndex j columnDom))
          <$> columnBottoms b !! j
    | None => columnBottoms b !! j
    end
  else columnBottoms b !! j.
Proof.
  revert i b.
  induction columns as [|columnDom rest IH]; intros i b; simpl.
  { case_decide; by rewrite ?lookup_nil. }
  assert (Hnone : forall o : option Z,
             (fun bottom => lowered bottom []) <$> o = o).
  { by intros [x|]. }
  unfold candidatesAt at 1.
  destruct (decide (i = minIndex)) as [Hi|Hi]; rewrite IH.
  - destruct (lt_eq_lt_dec j i) as [[Hlt|Heq]|Hgt].
    + by rewrite !decide_False by lia.
    + subst j. rewrite decide_False, decide_True by lia.
      rewrite Nat.sub_diag. simpl.
      unfold candidatesAt. rewrite decide_True by done. simpl.
      by rewrite Hnone.
    + rewrite !decide_True by lia.
      replace (j - i)%nat with (S (j - S i)) by lia. done.
  - rewrite scanColumn_collect, collect_bottoms.
    destruct (lt_eq_lt_dec j i) as [[Hlt|Heq]|Hgt].
    + by rewrite !decide_False by lia.
    + subst j. rewrite decide_False, !decide_True by lia.
      rewrite Nat.sub_diag. simpl.
      unfold candidatesAt. by rewrite decide_False by done.
    + rewrite decide_True, decide_False, decide_True by lia.
      replace (j - i)%nat with (S (j - S i)) by lia. done.
Qed.

Lemma below_ids columns :
  belowCellIds (below document columns) =
  map cellId (candidates document columns).
Proof. apply scanColumns_ids. Qed.

Lemma below_cells columns :
  belowCells (below document columns) =
  fold_left (fun m cellDom => <[cellId cellDom := record cellDom]> m)
    (candidates document columns) ∅.
Proof. apply scanColumns_cells. Qed.

Lemma below_length columns :
  length (columnBottoms (below document columns)) = length columns.
Proof.
  unfold below. rewrite scanColumns_length. simpl.
  by rewrite shortest_bottoms, length_map.
Qed.

Lemma below_bottoms columns j :
  columnBottoms (below document columns) !! j =
  (fun columnDom =>
     lowered (lastBottom document columnDom)
       (candidatesIn document columns j columnDom)) <$> columns !! j.
Proof.
  unfold below. rewrite scanColumns_bottoms. cbn [columnBottoms].
  rewrite decide_True by lia. rewrite Nat.sub_0_r, shortest_bottoms.
  rewrite list_lookup_fmap.
  by destruct (columns !! j).
Qed.

(** *** The map from identifiers to candidates *)

Lemma cells_lookup scanned (m : gmap Z BelowCell) id :
  fold_left (fun m cellDom => <[cellId cellDom := record cellDom]> m)
    scanned m !! id =
  match lastWithId document id scanned with
  | Some cellDom => Some (record cellDom)
  | None => m !! id
  end.
Proof.
  unfold lastWithId.
  induction scanned as [|cellDom scanned IH] using rev_ind; [done|].
  rewrite fold_left_app, filter_app, last_app. simpl.
  rewrite filter_cons, filter_nil.
  destruct (decide (cellId cellDom = id)) as [<-|Hne]; simpl.
  - by rewrite lookup_insert_eq.
  - by rewrite lookup_insert_ne.
Qed.

Lemma below_lookup columns id :
  belowCells (below document columns) !! id =
  record <$> lastWithId document id (candidates document columns).
Proof.
  rewrite below_cells, cells_lookup.
  by destruct (lastWithId _ _ _).
Qed.

Lemma lastWithId_elem id scanned cellDom :
  lastWithId document id scanned = Some cellDom ->
  cellDom ∈ scanned /\ cellId cellDom = id.
Proof.
  intros Hlast%last_Some_elem_of.
  apply list_elem_of_filter in Hlast. tauto.
Qed.

Lemma lastWithId_is_Some scanned cellDom :
  cellDom ∈ scanned ->
  is_Some (lastWithId document (cellId cellDom) scanned).
Proof.
  intros Hin. unfold lastWithId.
  assert (Hf : cellDom ∈ filter (fun c => cellId c = cellId cellDom) scanned).
  { by apply list_elem_of_filter. }
  destruct (filter _ scanned) as [|x l] using rev_ind.
  - by apply elem_of_nil in Hf.
  - rewrite last_snoc. by eexists.
Qed.

Lemma placed_candidates columns ids x :
  x ∈ placed (belowCells (below document columns)) ids ->
  x ∈ candidates document columns.
Proof.
  intros (id & _ & Hid)%list_elem_of_omap.
  rewrite below_lookup in Hid.
  destruct (lastWithId _ _ _) as [cellDom|] eqn:Hlast; [|done].
  injection Hid as <-. by apply lastWithId_elem in Hlast as [? _].
Qed.

(** *** Candidates are cells of the columns *)

Lemma candidatesOf_elem minBottom columnDom x :
  x ∈ candidatesOf document minBottom columnDom <->
  x ∈ columnDom /\ minBottom < DOMRect.top (rectOf x).
Proof.
  unfold candidatesOf. rewrite list_elem_of_filter.
  rewrite (list_elem_of_In (rev columnDom)), <-in_rev, <-list_elem_of_In.
  tauto.
Qed.

Lemma candidatesAt_elem minBottom minIndex i columnDom x :
  x ∈ candidatesAt document minBottom minIndex i columnDom <->
  i ≠ minIndex /\ x ∈ columnDom /\ minBottom < DOMRect.top (rectOf x).
Proof.
  unfold candidatesAt. case_decide.
  - rewrite elem_of_nil. tauto.
  - rewrite candidatesOf_elem. tauto.
Qed.

Lemma candidatesAt_NoDup minBottom minIndex i columnDom :
  NoDup columnDom ->
  NoDup (candidatesAt document minBottom minIndex i columnDom).
Proof.
  intros Hnd. unfold candidatesAt. case_decide; [constructor|].
  apply NoDup_filter. by apply NoDup_ListNoDup, NoDup_rev, NoDup_ListNoDup.
Qed.

Lemma candidatesFrom_elem minBottom minIndex i columns x :
  x ∈ candidatesFrom document minBottom minIndex i columns <->
  exists j columnDom,
    columns !! j = Some columnDom /\
    x ∈ candidatesAt document minBottom minIndex (i + j) columnDom.
Proof.
  revert i. induction columns as [|columnDom rest IH]; intros i; simpl.
  { rewrite elem_of_nil. split; [done|]. by intros (j & c & ? & _). }
  rewrite elem_of_app, IH. split.
  - intros [Hx|(j & c & Hj & Hx)].
    + exists 0%nat, columnDom. by rewrite Nat.add_0_r.
    + exists (S j), c. by rewrite <-Nat.add_succ_comm.
  - intros ([|j] & c & Hj & Hx); simpl in Hj.
    + injection Hj as <-. left. by rewrite Nat.add_0_r in Hx.
    + right. exists j, c. by rewrite <-Nat.add_succ_comm in Hx.
Qed.

Lemma candidatesFrom_concat minBottom minIndex i columns x :
  x ∈ candidatesFrom document minBottom minIndex i columns ->
  x ∈ concat columns.
Proof.
  intros (j & c & Hj & Hx)%candidatesFrom_elem.
  apply candidatesAt_elem in Hx as (_ & Hx & _).
  apply elem_of_concat. exists c. split; [|done].
  by eapply list_elem_of_lookup_2.
Qed.

Lemma candidatesFrom_NoDup minBottom minIndex i columns :
  NoDup (concat columns) ->
  NoDup (candidatesFrom document minBottom minIndex i columns).
Proof.
  revert i. induction columns as [|columnDom rest IH]; intros i; simpl.
  { constructor. }
  intros (Hcol & Hdisj & Hrest)%NoDup_app.
  apply NoDup_app. split; [by apply candidatesAt_NoDup|]. split; [|by apply IH].
  intros x Hx%candidatesAt_elem Hx'%candidatesFrom_concat.
  apply (Hdisj x); tauto.
Qed.

Lemma candidates_concat columns x :
  x ∈ candidates document columns -> x ∈ concat columns.
Proof. apply candidatesFrom_concat. Qed.

Lemma candidates_NoDup columns :
  NoDup (concat columns) -> NoDup (candidates document columns).
Proof. apply candidatesFrom_NoDup. Qed.

Lemma candidates_elem columns x :
  x ∈ candidates document columns <->
  exists i columnDom,
    columns !! i = Some columnDom /\
    x ∈ candidatesIn document columns i columnDom.
Proof. apply candidatesFrom_elem. Qed.

(** *** The pass as a whole *)

Lemma sortedIds_lookup Array_sort columns id :
  Rearranges Array_sort ->
  id ∈ sortedIds Array_sort document columns ->
  is_Some (belowCells (below document columns) !! id).
Proof.
  intros Hsort Hid. unfold sortedIds in Hid.
  rewrite (Hsort _ _), below_ids in Hid.
  apply list_elem_of_fmap in Hid as (cellDom & -> & Hin).
  rewrite below_lookup.
  destruct (lastWithId_is_Some _ _ Hin) as [c ->]. by eexists.
Qed.

Lemma arranged_spec Array_sort columns :
  Rearranges Array_sort ->
  exists a,
    arranged Array_sort document columns = Some a /\
    columnDoms a =
      map (filter (fun c =>
             c ∉ placed (belowCells (below document columns))
                   (sortedIds Array_sort document columns)))
        columns /\
    length (columnAppendFragments a) = length columns /\
    (forall x, x ∈ concat (columnAppendFragments a) <->
               x ∈ placed (belowCells (below document columns))
                     (sortedIds Array_sort document columns)) /\
    NoDup (concat (columnAppendFragments a)).
Proof.
  intros Hsort. unfold arranged.
  set (a0 := {| columnDoms := columns |}).
  destruct (arrange_spec (belowCells (below document columns))
              (sortedIds Array_sort document columns) a0)
    as (a & Harr & Hdoms & Hlen & _ & Helem & Hnodup).
  - intros id. by apply sortedIds_lookup.
  - simpl. by rewrite length_map, below_length.
  - simpl. intros Hids Hnil.
    assert (columns = []) as ->.
    { apply (f_equal length) in Hnil. rewrite below_length in Hnil.
      by destruct columns. }
    apply Hids. unfold sortedIds.
    apply Permutation_nil_r. by rewrite (Hsort _ _).
  - exists a. split; [done|]. split; [done|]. split.
    { rewrite Hlen. simpl. by rewrite length_map. }
    split.
    + intros x. rewrite Helem. simpl. rewrite concat_empty, elem_of_nil. tauto.
    + apply Hnodup. simpl. rewrite concat_empty. constructor.
Qed.

Lemma NoDup_fmap_inj (l : list node) x y :
  NoDup (cellId <$> l) -> x ∈ l -> y ∈ l -> cellId x = cellId y -> x = y.
Proof.
  induction l as [|z l IH]; [by intros _ ?%elem_of_nil|].
  rewrite fmap_cons, NoDup_cons.
  intros [Hz Hnd] [->|Hx]%elem_of_cons [->|Hy]%elem_of_cons Heq; try done.
  - destruct Hz. rewrite Heq. by apply list_elem_of_fmap_2.
  - destruct Hz. rewrite <-Heq. by apply list_elem_of_fmap_2.
  - by apply IH.
Qed.

(** With distinct identifiers every candidate is placed. *)
Lemma placed_all Array_sort columns x :
  Rearranges Array_sort ->
  NoDup (cellId <$> concat columns) ->
  x ∈ candidates document columns ->
  x ∈ placed (belowCells (below document columns))
        (sortedIds Array_sort document columns).
Proof.
  intros Hsort Hids Hx.
  apply list_elem_of_omap. exists (cellId x). split.
  - unfold sortedIds. rewrite (Hsort _ _), below_ids.
    by apply list_elem_of_fmap_2.
  - rewrite below_lookup.
    destruct (lastWithId_is_Some _ _ Hx) as [c Hc]. rewrite Hc. simpl.
    apply lastWithId_elem in Hc as [Hc Heq].
    f_equal. apply (NoDup_fmap_inj (concat columns)); try done.
    all: by eapply candidates_concat.
Qed.

(** Nothing is a candidate in balanced columns. *)
Lemma Balanced_candidates columns :
  Balanced document columns -> candidates document columns = [].
Proof.
  intros Hbal.
  destruct (candidates document columns) as [|x l] eqn:Hc; [done|].
  assert (Hx : x ∈ candidates document columns).
  { rewrite Hc. apply list_elem_of_here. }
  apply candidates_elem in Hx as (i & columnDom & Hi & Hx).
  apply candidatesAt_elem in Hx as (Hne & Hin & Htop).
  specialize (Hbal i columnDom x Hi Hne Hin). lia.
Qed.

Lemma lastWithId_later l1 c1 l2 c2 :
  c2 ∈ l2 ->
  exists c,
    lastWithId document (cellId c2) (l1 ++ c1 :: l2) = Some c /\ c ∈ l2.
Proof.
  intros Hin.
  destruct (lastWithId_is_Some _ _ Hin) as [c Hc].
  exists c. split; [|by apply lastWithId_elem in Hc as [? _]].
  unfold lastWithId in *.
  rewrite filter_app, last_app, filter_cons.
  destruct (filter _ l2) as [|y l] eqn:Hf; [done|].
  case_decide; [|by rewrite Hc].
  by rewrite last_cons, Hc.
Qed.

(** A candidate scanned before another one of its identifier is not the one
    the map holds, and so is not placed. *)
Lemma shadowed_not_placed columns ids before c1 between c2 after :
  NoDup (concat columns) ->
  candidates document columns = before ++ c1 :: between ++ c2 :: after ->
  cellId c1 = cellId c2 ->
  elm <$> belowCells (below document columns) !! cellId c1 ≠ Some c1 /\
  c1 ∉ placed (belowCells (below document columns)) ids.
Proof.
  intros Hnd Hscan Hid.
  pose proof (candidates_NoDup _ Hnd) as Hnd'. rewrite Hscan in Hnd'.
  apply NoDup_app in Hnd' as (_ & _ & Hnd').
  apply NoDup_cons in Hnd' as [Hc1 _].
  destruct (lastWithId_later before c1 (between ++ c2 :: after) c2)
    as (c & Hlast & Hc).
  { apply elem_of_app. right. apply list_elem_of_here. }
  rewrite <-Hid, <-Hscan in Hlast.
  assert (Hlookup : elm <$> belowCells (below document columns) !! cellId c1
                    ≠ Some c1).
  { rewrite below_lookup, Hlast. simpl. intros [= ->]. done. }
  split; [done|].
  intros (id & _ & Hplaced)%list_elem_of_omap.
  assert (id = cellId c1) as ->; [|done].
  rewrite below_lookup in Hplaced.
  destruct (lastWithId document id _) as [c'|] eqn:Hc'; [|done].
  injection Hplaced as ->. by apply lastWithId_elem in Hc' as [_ <-].
Qed.

End ReflowFacts.

(** White space around the digits of an attribute is not part of the
    identifier, the no-break space and the other Unicode spaces included. *)
Lemma cellId_white_space :
  Reflow.cellId Attributes.document 0%nat = 5 /\
  Reflow.cellId Attributes.document 1%nat = 5.
Proof. split; vm_compute; reflexivity. Qed.

(** The pass completes: nothing in it throws. *)
Lemma _reLayoutChildren_completes Array_sort document columns :
  Rearranges Array_sort ->
  is_Some (_reLayoutChildren Array_sort document columns).
Proof.
  intros Hsort.
  destruct (arranged_spec document Array_sort columns Hsort) as (a & Ha & _).
  unfold _reLayoutChildren. rewrite Ha. by eexists.
Qed.

(** The binary insertion sort never reorders the identifiers collected;
    the insertion sort run on the same comparator does sort them. *)
Lemma binaryInsertion_keeps_collection_order document columns :
  sortedIds Sort.binaryInsertion document columns =
  belowCellIds (below document columns).
Proof. apply binaryInsertion_comparefn. Qed.

Lemma scenario_insertion_order :
  sortedIds Sort.insertion Scenario.document Scenario.columns = [5; 6; 7] /\
  _reLayoutChildren Sort.insertion Scenario.document Scenario.columns
    = Some [[1; 5; 7]; [2; 6]; [3]]%nat.
Proof. split; vm_compute; reflexivity. Qed.

(** ** Facts about the slot classification *)

Section ChildrenFacts.

Import Children.

Lemma filterSlot_group this vnode :
  filterSlot this vnode =
  match group vnode with
  | Dropped => (this, false)
  | Refresh =>
      ({| _headers := _headers this; _others := _others this;
          _footers := _footers this; _cells := _cells this;
          _refresh := Some vnode; _loading := _loading this;
          _listCells := _listCells this |}, false)
  | Loading =>
      ({| _headers := _headers this; _others := _others this;
          _footers := _footers this; _cells := _cells this;
          _refresh := _refresh this; _loading := Some vnode;
          _listCells := _listCells this |}, false)
  | Header =>
      ({| _headers := _headers this ++ [vnode]; _others := _others this;
          _footers := _footers this; _cells := _cells this;
          _refresh := _refresh this; _loading := _loading this;
          _listCells := _listCells this |}, false)
  | Footer =>
      ({| _headers := _headers this; _others := _others this;
          _footers := _footers this ++ [vnode]; _cells := _cells this;
          _refresh := _refresh this; _loading := _loading this;
          _listCells := _listCells this |}, false)
  | Other =>
      ({| _headers := _headers this; _others := _others this ++ [vnode];
          _footers := _footers this; _cells := _cells this;
          _refresh := _refresh this; _loading := _loading this;
          _listCells := _listCells this |}, false)
  | Cell => (this, true)
  end.
Proof.
  unfold filterSlot, group.
  destruct (noTag vnode); [done|].
  destruct (componentOptions vnode) as [options|]; [|done].
  destruct (tagIs (ctag options) "refresh"); [done|].
  destruct (tagIs (ctag options) "loading"); [done|].
  destruct (tagIs (ctag options) "header"); [by destruct (footerMarker vnode)|].
  by destruct (tagIs (ctag options) "cell").
Qed.

Lemma ofGroup_cons g vnode slots :
  ofGroup g (vnode :: slots) =
  if decide (group vnode = g) then vnode :: ofGroup g slots
  else ofGroup g slots.
Proof. unfold ofGroup. by rewrite filter_cons. Qed.

Lemma latest_cons g vnode slots previous :
  latest g (vnode :: slots) previous =
  latest g slots (if decide (group vnode = g) then Some vnode else previous).
Proof.
  unfold latest. rewrite ofGroup_cons. case_decide; [|done].
  rewrite last_cons. by destruct (last (ofGroup g slots)).
Qed.

Lemma filterSlots_groups this slots :
  filterSlots this slots =
  ({| _headers := _headers this ++ ofGroup Header slots;
      _others := _others this ++ ofGroup Other slots;
      _footers := _footers this ++ ofGroup Footer slots;
      _cells := _cells this;
      _refresh := latest Refresh slots (_refresh this);
      _loading := latest Loading slots (_loading this);
      _listCells := _listCells this |},
   ofGroup Cell slots).
Proof.
  revert this. induction slots as [|vnode rest IH]; intros this.
  { simpl. unfold ofGroup, latest. simpl. rewrite !app_nil_r. by destruct this. }
  cbn [filterSlots]. rewrite filterSlot_group, !ofGroup_cons, !latest_cons.
  destruct (group vnode); rewrite IH; simpl;
    rewrite ?decide_True by done; rewrite ?decide_False by done;
    by rewrite <-?app_assoc.
Qed.

Lemma group_Cell vnode :
  group vnode = Cell ->
  exists options,
    componentOptions vnode = Some options /\ ctag options = Some "cell".
Proof.
  unfold group. destruct (noTag vnode); [done|].
  destruct (componentOptions vnode) as [options|]; [|done].
  repeat (match goal with |- context [if ?b then _ else _] => destruct b eqn:? end);
    try done.
  intros _. exists options. split; [done|].
  unfold tagIs in *. destruct (ctag options) as [s|]; [|done].
  f_equal. by apply String.eqb_eq.
Qed.

Lemma group_Dropped vnode : group vnode = Dropped <-> Untagged vnode.
Proof.
  unfold group, Untagged. destruct (noTag vnode); [by split; [left|]|].
  destruct (componentOptions vnode) as [options|]; [|by split; [right|]].
  repeat (match goal with |- context [if ?b then _ else _] => destruct b end);
    (split; [done|by intros [?|?]]).
Qed.

Lemma slotsOf_Slots (l : list VNode) : flat_map slotsOf (Slot <$> l) = l.
Proof. induction l as [|x l IH]; csimpl; [done|]. by rewrite IH. Qed.

Lemma slotsOf_wrapped (l : list VNode) :
  flat_map slotsOf ((fun cell => h "html:div" [Slot cell]) <$> l) = l.
Proof. induction l as [|x l IH]; csimpl; [done|]. by rewrite IH. Qed.

Lemma slotsOf_optional (x : option VNode) :
  flat_map slotsOf (optional x) = option_list x.
Proof. by destruct x. Qed.

Lemma elem_of_option_list (x : option VNode) vnode :
  vnode ∈ option_list x -> x = Some vnode.
Proof.
  destruct x as [v|]; simpl; [|by intros ?%elem_of_nil].
  by intros ->%list_elem_of_singleton.
Qed.

Lemma pushIf_optional children x : pushIf children x = children ++ optional x.
Proof. destruct x; simpl; [done|]. by rewrite app_nil_r. Qed.

Lemma _createChildren_children this slots :
  (_createChildren this slots).2 =
  [h "html:div"
     (optional (latest Refresh slots (_refresh this)) ++
      (Slot <$> ofGroup Header slots) ++
      (Slot <$> ofGroup Other slots) ++
      [h "html:div"
         ((fun cell => h "html:div" [Slot cell]) <$> ofGroup Cell slots)] ++
      (Slot <$> ofGroup Footer slots) ++
      optional (latest Loading slots (_loading this)))].
Proof.
  unfold _createChildren. rewrite filterSlots_groups. simpl.
  rewrite !pushIf_optional. simpl. by rewrite <-!app_assoc.
Qed.

Lemma slotsOf_children this slots :
  flat_map slotsOf (_createChildren this slots).2 =
  option_list (latest Refresh slots (_refresh this)) ++
  ofGroup Header slots ++ ofGroup Other slots ++ ofGroup Cell slots ++
  ofGroup Footer slots ++ option_list (latest Loading slots (_loading this)).
Proof.
  rewrite _createChildren_children. cbn [flat_map slotsOf].
  rewrite app_nil_r, !flat_map_app. cbn [flat_map slotsOf].
  by rewrite app_nil_r, !slotsOf_Slots, !slotsOf_optional, slotsOf_wrapped.
Qed.

Lemma _createChildren_this this slots :
  (_createChildren this slots).1 =
  {| _headers := ofGroup Header slots;
     _others := ofGroup Other slots;
     _footers := ofGroup Footer slots;
     _cells := ofGroup Cell slots;
     _refresh := latest Refresh slots (_refresh this);
     _loading := latest Loading slots (_loading this);
     _listCells :=
       (fun cell => h "html:div" [Slot cell]) <$> ofGroup Cell slots |}.
Proof. unfold _createChildren. by rewrite filterSlots_groups. Qed.

Lemma latest_group g slots previous vnode :
  (forall v, previous = Some v -> group v = g) ->
  latest g slots previous = Some vnode -> group vnode = g.
Proof.
  intros Hprev. unfold latest.
  destruct (last (ofGroup g slots)) as [v|] eqn:Hlast; [|by apply Hprev].
  intros [= <-]. apply last_Some_elem_of in Hlast.
  by apply list_elem_of_filter in Hlast as [? _].
Qed.

(** The indicators a call leaves in [this] were stored by it or before. *)
Lemma _createChildren_Stored this slots :
  Stored this -> Stored (_createChildren this slots).1.
Proof.
  intros [Hrefresh Hloading]. rewrite _createChildren_this.
  split; simpl; intros vnode; by apply latest_group.
Qed.

End ChildrenFacts.

(** ** Facts about the validators *)

Section PropsFacts.

Import Props.

Lemma positive_spec (parsed : option Z) :
  positive parsed = true <-> exists n, parsed = Some n /\ 0 < n.
Proof.
  destruct parsed as [n|]; simpl.
  - rewrite Z.ltb_lt. split; [by exists n|]. by intros (? & [= <-] & ?).
  - split; [done|]. by intros (? & ? & _).
Qed.

End PropsFacts.

(** * The properties *)

(** ** The column rebalancing *)

(** C1.  In the three-column scenario the trackers stand at 50, 50 and 70
    once the candidates 5, 6 and 7 (heights 20, 30 and 10) are taken off.
    Placing them in the order of their identifiers, the loop puts 5 in
    column 0 (the first of the two columns at 50), 6 in column 1 and 7 in
    column 0, and leaves the trackers at 80, 80 and 70. *)
Theorem scenario_greedy_assignment :
  let cells := belowCells (below Scenario.document Scenario.columns) in
  columnBottoms (below Scenario.document Scenario.columns) = [50; 50; 70] /\
  height <$> cells !! 5 = Some 20 /\
  height <$> cells !! 6 = Some 30 /\
  height <$> cells !! 7 = Some 10 /\
  exists a1 a2 a3,
    addToShortestColumn Scenario.start (cells !! 5) = Some a1 /\
    columnAppendFragments a1 = [[5]; []; []]%nat /\
    bottoms a1 = [70; 50; 70] /\
    addToShortestColumn a1 (cells !! 6) = Some a2 /\
    columnAppendFragments a2 = [[5]; [6]; []]%nat /\
    bottoms a2 = [70; 80; 70] /\
    addToShortestColumn a2 (cells !! 7) = Some a3 /\
    columnAppendFragments a3 = [[5; 7]; [6]; []]%nat /\
    bottoms a3 = [80; 80; 70] /\
    arrange cells [5; 6; 7] Scenario.start = Some a3.
Proof.
  cbv zeta. repeat split; try (vm_compute; reflexivity).
  eexists _, _, _. repeat split; vm_compute; reflexivity.
Qed.

(** C2.  The candidates are said to be processed in ascending order of
    identifier whatever the order of collection.  The comparator returns
    the boolean [a > b], never a negative number, so the binary insertion
    sort takes the whole array for an ascending run and leaves it as it is:
    in the scenario the identifiers are collected as 6, 5, 7 and stay in
    that order. *)
Theorem scenario_sort_leaves_collection_order :
  belowCellIds (below Scenario.document Scenario.columns) = [6; 5; 7] /\
  sortedIds Sort.binaryInsertion Scenario.document Scenario.columns
    = [6; 5; 7] /\
  ~ Sorted Z.le
      (sortedIds Sort.binaryInsertion Scenario.document Scenario.columns).
Proof.
  assert (Hsorted :
    sortedIds Sort.binaryInsertion Scenario.document Scenario.columns
      = [6; 5; 7]) by (vm_compute; reflexivity).
  split; [vm_compute; reflexivity|]. split; [done|].
  rewrite Hsorted. intros Hs.
  apply Sorted_inv in Hs as [_ Hhd]. apply HdRel_inv in Hhd. lia.
Qed.

(** C3.  In step 2 the shortest column is skipped and every other column is
    scanned from its last cell to its first.  A cell is collected if and
    only if its top edge is strictly greater than the shortest bottom; at
    that moment its identifier is pushed, it is recorded under that
    identifier with its height, and the tracker of its column is
    decremented by exactly its height.  After the step the tracker of a
    column is the bottom measured in step 1 with the height of each of its
    candidates subtracted from it, one after the other in the order of the
    scan; the tracker of the shortest column is the bottom measured. *)
Theorem candidate_collection (document : Document)
    (columns : list (list node)) :
  let s := shortest document columns in
  (forall i b cellDom,
     DOMRect.top (getBoundingClientRect document cellDom) <= minBottom s ->
     scanCell document (minBottom s) i b cellDom = b) /\
  (forall i b cellDom,
     minBottom s < DOMRect.top (getBoundingClientRect document cellDom) ->
     let b' := scanCell document (minBottom s) i b cellDom in
     belowCellIds b' = belowCellIds b ++ [cellId document cellDom] /\
     belowCells b' !! cellId document cellDom =
       Some {| elm := cellDom;
               height :=
                 DOMRect.height (getBoundingClientRect document cellDom) |} /\
     columnBottoms b' =
       alter
         (fun bottom =>
            bottom - DOMRect.height (getBoundingClientRect document cellDom))
         i (columnBottoms b)) /\
  (forall i columnDom cellDom,
     columns !! i = Some columnDom ->
     cellDom ∈ candidatesIn document columns i columnDom <->
     i ≠ minBottomColumnIndex s /\ cellDom ∈ columnDom /\
     minBottom s < DOMRect.top (getBoundingClientRect document cellDom)) /\
  (forall i columnDom,
     i ≠ minBottomColumnIndex s ->
     candidatesIn document columns i columnDom =
     filter
       (fun cellDom =>
          minBottom s < DOMRect.top (getBoundingClientRect document cellDom))
       (rev columnDom)) /\
  belowCellIds (below document columns) =
    cellId document <$> candidates document columns /\
  (forall i,
     columnBottoms (below document columns) !! i =
     (fun columnDom =>
        lowered document (lastBottom document columnDom)
          (candidatesIn document columns i columnDom))
       <$> columns !! i) /\
  columnBottoms (below document columns) !! minBottomColumnIndex s =
    lastBottom document <$> columns !! minBottomColumnIndex s.
Proof.
  intros s. split; [|split; [|split; [|split; [|split; [|split]]]]].
  - intros i b cellDom Htop. by apply scanCell_above.
  - intros i b cellDom Htop. cbv zeta. rewrite scanCell_below by done.
    simpl. by rewrite lookup_insert_eq.
  - intros i columnDom cellDom _. apply candidatesAt_elem.
  - intros i columnDom Hi. unfold candidatesIn, candidatesAt.
    by rewrite decide_False.
  - apply below_ids.
  - apply below_bottoms.
  - rewrite below_bottoms.
    destruct (columns !! minBottomColumnIndex s) as [columnDom|]; [|done].
    simpl. unfold candidatesIn, candidatesAt. by rewrite decide_True.
Qed.

(** C4.  When the cells of the columns carry pairwise distinct identifiers,
    a pass conserves them: it completes, every candidate ends in exactly
    one fragment and so is appended to exactly one column, the cells left
    in a column are its cells that are no candidates, and the identifiers
    across the columns after the pass are those before it, each as often. *)
Theorem reflow_conserves_identifiers
    (Array_sort : (Z -> Z -> Z) -> list Z -> list Z) (document : Document)
    (columns : list (list node)) :
  Rearranges Array_sort ->
  NoDup (cellId document <$> concat columns) ->
  exists a,
    arranged Array_sort document columns = Some a /\
    _reLayoutChildren Array_sort document columns
      = Some (zip_with app (columnDoms a) (columnAppendFragments a)) /\
    columnDoms a =
      map (filter (fun c => c ∉ candidates document columns)) columns /\
    concat (columnAppendFragments a) ≡ₚ candidates document columns /\
    NoDup (concat (columnAppendFragments a)) /\
    cellId document <$>
      concat (zip_with app (columnDoms a) (columnAppendFragments a))
      ≡ₚ cellId document <$> concat columns.
Proof.
  intros Hsort Hids.
  pose proof (NoDup_fmap_1 _ _ Hids) as Hnd.
  destruct (arranged_spec document Array_sort columns Hsort)
    as (a & Harr & Hdoms & Hlen & Helem & Hfrag).
  assert (Hplaced : forall x,
    x ∈ placed (belowCells (below document columns))
          (sortedIds Array_sort document columns) <->
    x ∈ candidates document columns).
  { intros x. split; [apply placed_candidates|by apply placed_all]. }
  assert (Hdoms' : columnDoms a =
    map (filter (fun c => c ∉ candidates document columns)) columns).
  { rewrite Hdoms. apply map_ext. intros l. apply list_filter_iff.
    intros x. by rewrite Hplaced. }
  exists a. split; [done|]. split.
  { unfold _reLayoutChildren. by rewrite Harr. }
  split; [done|]. split.
  { apply NoDup_Permutation; [done|by apply candidates_NoDup|].
    intros x. by rewrite Helem, Hplaced. }
  split; [done|].
  apply fmap_Permutation.
  apply (conservation columns a (candidates document columns)); try done.
  - apply candidates_concat.
  - intros x. by rewrite Helem, Hplaced.
Qed.

Lemma reflow_conserves_identifiers_witness :
  exists a,
    arranged Sort.binaryInsertion Scenario.document Scenario.columns
      = Some a /\
    _reLayoutChildren Sort.binaryInsertion Scenario.document Scenario.columns
      = Some (zip_with app (columnDoms a) (columnAppendFragments a)) /\
    columnDoms a =
      map (filter (fun c =>
             c ∉ candidates Scenario.document Scenario.columns))
        Scenario.columns /\
    concat (columnAppendFragments a)
      ≡ₚ candidates Scenario.document Scenario.columns /\
    NoDup (concat (columnAppendFragments a)) /\
    cellId Scenario.document <$>
      concat (zip_with app (columnDoms a) (columnAppendFragments a))
      ≡ₚ cellId Scenario.document <$> concat Scenario.columns.
Proof.
  apply (reflow_conserves_identifiers Sort.binaryInsertion
           Scenario.document Scenario.columns).
  - exact binaryInsertion_Permutation.
  - apply (bool_decide_unpack _). vm_compute. exact I.
Defined.

(** C5.  On balanced columns (no cell of a column other than the shortest
    has its top edge strictly greater than the shortest bottom) a pass
    moves nothing: no identifier is collected, every column is left as it
    is, and a second pass on what the first one leaves, the geometry being
    the same, leaves it again. *)
Theorem balanced_reflow_moves_nothing
    (Array_sort : (Z -> Z -> Z) -> list Z -> list Z) (document : Document)
    (columns : list (list node)) :
  Rearranges Array_sort ->
  Balanced document columns ->
  belowCellIds (below document columns) = [] /\
  sortedIds Array_sort document columns = [] /\
  _reLayoutChildren Array_sort document columns = Some columns /\
  _reLayoutChildren Array_sort document columns
    ≫= _reLayoutChildren Array_sort document = Some columns.
Proof.
  intros Hsort Hbal.
  assert (Hids : belowCellIds (below document columns) = []).
  { by rewrite below_ids, Balanced_candidates. }
  assert (Hsorted : sortedIds Array_sort document columns = []).
  { unfold sortedIds. apply Permutation_nil_r. by rewrite (Hsort _ _), Hids. }
  assert (Hpass : _reLayoutChildren Array_sort document columns
                  = Some columns).
  { unfold _reLayoutChildren, arranged. rewrite Hsorted. simpl.
    unfold appendFragments. simpl. by rewrite zip_app_empty. }
  repeat split; try done.
  rewrite Hpass. simpl. exact Hpass.
Qed.

Lemma balanced_reflow_moves_nothing_witness :
  belowCellIds (below Scenario.document [[1]; [2]; [3]]%nat) = [] /\
  sortedIds Sort.binaryInsertion Scenario.document [[1]; [2]; [3]]%nat
    = [] /\
  _reLayoutChildren Sort.binaryInsertion Scenario.document
    [[1]; [2]; [3]]%nat = Some [[1]; [2]; [3]]%nat /\
  _reLayoutChildren Sort.binaryInsertion Scenario.document
    [[1]; [2]; [3]]%nat
    ≫= _reLayoutChildren Sort.binaryInsertion Scenario.document
    = Some [[1]; [2]; [3]]%nat.
Proof.
  apply (balanced_reflow_moves_nothing Sort.binaryInsertion
           Scenario.document [[1]; [2]; [3]]%nat).
  - exact binaryInsertion_Permutation.
  - intros i columnDom cellDom Hi _ Hin.
    destruct i as [|[|[|i]]]; simpl in Hi; simplify_eq;
      apply list_elem_of_singleton in Hin; subst; vm_compute; discriminate.
Defined.

(** C8.  The column that is shortest when the pass starts loses no cell:
    none of its cells is a candidate, and after the pass it holds the cells
    it held, in the same order, followed by the candidates appended to
    it. *)
Theorem shortest_column_is_extended
    (Array_sort : (Z -> Z -> Z) -> list Z -> list Z) (document : Document)
    (columns : list (list node)) (columnDom : list node) :
  Rearranges Array_sort ->
  NoDup (concat columns) ->
  columns !! minBottomColumnIndex (shortest document columns)
    = Some columnDom ->
  (forall cellDom,
     cellDom ∈ columnDom -> cellDom ∉ candidates document columns) /\
  exists columns' appended,
    _reLayoutChildren Array_sort document columns = Some columns' /\
    columns' !! minBottomColumnIndex (shortest document columns)
      = Some (columnDom ++ appended) /\
    (forall cellDom,
       cellDom ∈ appended -> cellDom ∈ candidates document columns).
Proof.
  intros Hsort Hnd Hmin.
  set (minIndex := minBottomColumnIndex (shortest document columns)) in *.
  assert (Hkeep : forall cellDom,
    cellDom ∈ columnDom -> cellDom ∉ candidates document columns).
  { intros cellDom Hin (i & c & Hi & Hc)%candidates_elem.
    apply candidatesAt_elem in Hc as (Hne & Hc & _).
    apply Hne.
    by apply (NoDup_concat_lookup columns i minIndex c columnDom cellDom). }
  split; [done|].
  destruct (arranged_spec document Array_sort columns Hsort)
    as (a & Harr & Hdoms & Hlen & Helem & _).
  destruct (lookup_lt_is_Some_2 (columnAppendFragments a) minIndex)
    as [appended Happ].
  { rewrite Hlen. by eapply lookup_lt_Some. }
  exists (appendFragments a), appended. split.
  { unfold _reLayoutChildren. by rewrite Harr. }
  split.
  - unfold appendFragments. rewrite lookup_zip_with, Hdoms.
    rewrite list_lookup_fmap, Hmin, Happ. simpl. do 2 f_equal.
    clear Hmin. induction columnDom as [|x l IH]; [done|].
    rewrite filter_cons, decide_True.
    + f_equal. apply IH. intros c Hc. apply Hkeep. by right.
    + intros Hx%placed_candidates. eapply Hkeep; [|done]. by left.
  - intros cellDom Hin. eapply placed_candidates, Helem.
    apply elem_of_concat. exists appended. split; [|done].
    by eapply list_elem_of_lookup_2.
Qed.

Lemma shortest_column_is_extended_witness :
  (forall cellDom,
     cellDom ∈ [2]%nat ->
     cellDom ∉ candidates Scenario.document Scenario.columns) /\
  exists columns' appended,
    _reLayoutChildren Sort.binaryInsertion Scenario.document
      Scenario.columns = Some columns' /\
    columns' !! minBottomColumnIndex
                  (shortest Scenario.document Scenario.columns)
      = Some ([2]%nat ++ appended) /\
    (forall cellDom,
       cellDom ∈ appended ->
       cellDom ∈ candidates Scenario.document Scenario.columns).
Proof.
  apply (shortest_column_is_extended Sort.binaryInsertion
           Scenario.document Scenario.columns [2]%nat).
  - exact binaryInsertion_Permutation.
  - apply (bool_decide_unpack _). vm_compute. exact I.
  - vm_compute. reflexivity.
Defined.

(** C9.  The identifier of a cell is its [data-cell] attribute under [~~]:
    a 32-bit integer, 0 when the attribute is missing or not numeric.  The
    map of step 2 holds, under an identifier, the element and the height of
    the candidate scanned last with it.  So when a candidate [c1] is
    scanned before a candidate [c2] of the same identifier, the map does
    not hold [c1]; the height of [c1] has been subtracted from the tracker
    of its column all the same, in its turn between the candidates of the
    column scanned earlier and those scanned later; and [c1] is appended
    to no fragment: it stays among the cells of the columns. *)
Theorem identifier_collision
    (Array_sort : (Z -> Z -> Z) -> list Z -> list Z) (document : Document)
    (columns : list (list node)) (c1 c2 : node)
    (before between after : list node) :
  Rearranges Array_sort ->
  NoDup (concat columns) ->
  candidates document columns = before ++ c1 :: between ++ c2 :: after ->
  cellId document c1 = cellId document c2 ->
  (forall cellDom,
     cellId document cellDom =
       JS.ToInt32 (ToNumber (getAttribute document cellDom)) /\
     - 2 ^ 31 <= cellId document cellDom < 2 ^ 31) /\
  (forall cellDom,
     getAttribute document cellDom = None -> cellId document cellDom = 0) /\
  (forall cellDom s,
     getAttribute document cellDom = Some s ->
     JS.StringToNumber s = JS.NaN ->
     cellId document cellDom = 0) /\
  (forall id,
     belowCells (below document columns) !! id =
     (fun cellDom =>
        {| elm := cellDom;
           height :=
             DOMRect.height (getBoundingClientRect document cellDom) |})
       <$> lastWithId document id (candidates document columns)) /\
  elm <$> belowCells (below document columns) !! cellId document c1
    ≠ Some c1 /\
  (exists i columnDom earlier later,
     columns !! i = Some columnDom /\
     candidatesIn document columns i columnDom = earlier ++ c1 :: later /\
     columnBottoms (below document columns) !! i =
       Some (lowered document
               (lowered document (lastBottom document columnDom) earlier
                - DOMRect.height (getBoundingClientRect document c1))
               later)) /\
  exists a,
    arranged Array_sort document columns = Some a /\
    (c1 ∉ concat (columnAppendFragments a)) /\
    c1 ∈ concat (columnDoms a).
Proof.
  intros Hsort Hnd Hscan Hid.
  assert (Hc1 : c1 ∈ candidates document columns).
  { rewrite Hscan. apply elem_of_app. right. apply list_elem_of_here. }
  destruct (shadowed_not_placed document columns
              (sortedIds Array_sort document columns)
              before c1 between c2 after Hnd Hscan Hid)
    as [Hlookup Hplaced].
  split; [|split; [|split; [|split; [|split; [|split]]]]].
  - intros cellDom. rewrite cellId_ToInt32. split; [done|].
    apply ToInt32_range.
  - intros cellDom Hattr. by rewrite cellId_ToInt32, Hattr.
  - intros cellDom s Hattr Hnan. rewrite cellId_ToInt32, Hattr. simpl.
    by rewrite Hnan.
  - apply below_lookup.
  - done.
  - apply candidates_elem in Hc1 as (i & columnDom & Hi & Hin).
    change (c1 ∈ candidatesIn document columns i columnDom) in Hin.
    apply list_elem_of_split in Hin as (earlier & later & Hsplit).
    exists i, columnDom, earlier, later. split; [done|]. split; [done|].
    rewrite below_bottoms, Hi. cbn [fmap option_fmap option_map].
    rewrite Hsplit. unfold lowered. by rewrite fold_left_app.
  - destruct (arranged_spec document Array_sort columns Hsort)
      as (a & Harr & Hdoms & _ & Helem & _).
    exists a. split; [done|]. split; [by rewrite Helem|].
    rewrite Hdoms, concat_filter. apply list_elem_of_filter.
    split; [done|]. by apply (candidates_concat document).
Qed.

Lemma identifier_collision_witness :
  elm <$> belowCells (below Collision.document Collision.columns)
            !! cellId Collision.document 4%nat
    ≠ Some 4%nat /\
  exists a,
    arranged Sort.binaryInsertion Collision.document Collision.columns
      = Some a /\
    (4%nat ∉ concat (columnAppendFragments a)) /\
    4%nat ∈ concat (columnDoms a).
Proof.
  pose proof (identifier_collision Sort.binaryInsertion Collision.document
                Collision.columns 4%nat 3%nat [] [] []) as H.
  destruct H as (_ & _ & _ & _ & Hlookup & _ & Hstays).
  - exact binaryInsertion_Permutation.
  - apply (bool_decide_unpack _). vm_compute. exact I.
  - vm_compute. reflexivity.
  - vm_compute. reflexivity.
  - by split.
Defined.

(** ** The slot classification *)

Section ChildrenProperties.

Import Children.

(** C6.  Whatever the slots, [_createChildren] returns one [div] whose
    children are, in this order: the refresh indicator if there is one,
    the header nodes, the other nodes, the [div] of the column grid, the
    footer nodes (header nodes marked [data-type="footer"]) and the loading
    indicator if there is one.  The grid holds the cell nodes, each in a
    [div] of its own, and nothing else: every node in it is tagged
    ['cell']. *)
Theorem children_in_fixed_order (this : Waterfall) (slots : list VNode) :
  (_createChildren this slots).2 =
    [h "html:div"
       (optional (latest Refresh slots (_refresh this)) ++
        (Slot <$> ofGroup Header slots) ++
        (Slot <$> ofGroup Other slots) ++
        [h "html:div"
           ((fun cell => h "html:div" [Slot cell]) <$> ofGroup Cell slots)] ++
        (Slot <$> ofGroup Footer slots) ++
        optional (latest Loading slots (_loading this)))] /\
  _cells (_createChildren this slots).1 = ofGroup Cell slots /\
  (forall vnode,
     vnode ∈ ofGroup Cell slots ->
     exists options,
       componentOptions vnode = Some options /\
       ctag options = Some "cell").
Proof.
  split; [apply _createChildren_children|]. split.
  - by rewrite _createChildren_this.
  - intros vnode [Hcell _]%list_elem_of_filter. by apply group_Cell.
Qed.

(** C10.  A slot node without a tag or without component options is in none
    of the groups [_createChildren] leaves in [this] (cells, headers,
    footers, others, refresh and loading indicators) and occurs nowhere in
    the children it returns.  The indicators [this] holds on entry come
    from an earlier call. *)
Theorem untagged_slot_is_dropped (this : Waterfall) (slots : list VNode)
    (vnode : VNode) :
  Stored this ->
  Untagged vnode ->
  let this' := (_createChildren this slots).1 in
  (vnode ∉ _cells this') /\
  (vnode ∉ _headers this') /\
  (vnode ∉ _footers this') /\
  (vnode ∉ _others this') /\
  _refresh this' ≠ Some vnode /\
  _loading this' ≠ Some vnode /\
  vnode ∉ flat_map slotsOf (_createChildren this slots).2.
Proof.
  intros [Hrefresh Hloading] Hdropped%group_Dropped this'.
  assert (Hgroup : forall g, g ≠ Dropped -> vnode ∉ ofGroup g slots).
  { intros g Hg [Hin _]%list_elem_of_filter. apply Hg. by rewrite <-Hin. }
  assert (Hlatest : forall g previous,
    g ≠ Dropped -> (forall v, previous = Some v -> group v = g) ->
    latest g slots previous ≠ Some vnode).
  { intros g previous Hg Hprev Hl%latest_group; [|done].
    apply Hg. by rewrite <-Hl. }
  subst this'. rewrite _createChildren_this, slotsOf_children.
  cbn [_cells _headers _footers _others _refresh _loading].
  repeat split; try (by apply Hgroup); try (by apply Hlatest).
  rewrite !elem_of_app.
  intros [Hin|[Hin|[Hin|[Hin|[Hin|Hin]]]]];
    try (by eapply Hgroup in Hin).
  - apply elem_of_option_list in Hin. by eapply (Hlatest Refresh) in Hin.
  - apply elem_of_option_list in Hin. by eapply (Hlatest Loading) in Hin.
Qed.

Lemma untagged_slot_is_dropped_witness :
  let this' := (_createChildren Slots.fresh [Slots.text; Slots.cell]).1 in
  (Slots.text ∉ _cells this') /\
  (Slots.text ∉ _headers this') /\
  (Slots.text ∉ _footers this') /\
  (Slots.text ∉ _others this') /\
  _refresh this' ≠ Some Slots.text /\
  _loading this' ≠ Some Slots.text /\
  Slots.text ∉
    flat_map slotsOf (_createChildren Slots.fresh [Slots.text; Slots.cell]).2.
Proof.
  apply (untagged_slot_is_dropped Slots.fresh [Slots.text; Slots.cell]
           Slots.text).
  - split; intros vnode; simpl; discriminate.
  - left. reflexivity.
Defined.

End ChildrenProperties.

(** ** The validator of [columnGap] *)

Section PropsProperties.

Import Props.

(** C7, as stated, fails on the Number 0: the validator accepts it through
    [!val], although it is not ['normal'], not the empty string, not absent
    and does not parse to a strictly positive integer. *)
Lemma columnGap_accepts_zero :
  validator columnGap (Int 0) = Return true /\ ~ SaidAccepted (Int 0).
Proof.
  split; [reflexivity|].
  intros [H|[H|[H|(n & H & Hn)]]]; try discriminate.
  injection H as <-. lia.
Qed.

(** C7, amended.  On a String or a Number the validator of [columnGap]
    returns without throwing, and accepts exactly ['normal'], the values
    [!val] holds of (the empty string, 0 and NaN) and the values [parseInt]
    reads as a strictly positive integer.  The configuration then takes an
    accepted value as it is and the default ['normal'] for a rejected one;
    so ["-5"] is rejected and replaced by ['normal'], and an absent value
    is accepted and takes the default. *)
Theorem columnGap_validation (val : Value) :
  hasType val = true ->
  (exists accepted used,
     validator columnGap val = Return accepted /\
     (accepted = true <->
      val = Str "normal" \/ val = Str "" \/ val = Int 0 \/ val = NotANumber \/
      exists n, parseInt val = Return (Some n) /\ 0 < n) /\
     configure columnGap val = Return used /\
     used = if accepted then val else Str "normal") /\
  validator columnGap (Str "-5") = Return false /\
  configure columnGap (Str "-5") = Return (Str "normal") /\
  validator columnGap Undefined = Return true /\
  configure columnGap Undefined = Return (Str "normal").
Proof.
  intros Htype. split; [|by repeat split].
  destruct val as [|s|n| |]; try discriminate; simpl.
  - destruct (String.eqb_spec s "") as [->|Hempty]; simpl.
    { exists true, (Str ""). repeat split; auto. }
    destruct (String.eqb_spec s "normal") as [->|Hnormal]; simpl.
    { exists true, (Str "normal"). repeat split; auto. }
    exists (positive (JS.parseInt s)),
      (if positive (JS.parseInt s) then Str s else Str "normal").
    split; [done|]. split; [|by destruct (positive _)].
    rewrite positive_spec. split.
    + intros (n & Hn & Hpos). do 4 right. exists n. by rewrite Hn.
    + intros [[= ->]|[[= ->]|[[=]|[[=]|(n & [= Hn] & Hpos)]]]]; try done.
      by exists n.
  - destruct (Z.eqb_spec n 0) as [->|Hzero]; simpl.
    { exists true, (Int 0). repeat split; auto. }
    exists (0 <? n), (if 0 <? n then Int n else Str "normal").
    split; [done|]. split; [|by destruct (0 <? n)].
    rewrite Z.ltb_lt. split.
    + intros Hpos. do 4 right. by exists n.
    + intros [[=]|[[=]|[[= ->]|[[=]|(m & [= <-] & Hpos)]]]]; done.
  - exists true, NotANumber. repeat split; auto.
Qed.

Lemma columnGap_validation_witness :
  (exists accepted used,
     validator columnGap (Str "-5") = Return accepted /\
     (accepted = true <->
      Str "-5" = Str "normal" \/ Str "-5" = Str "" \/ Str "-5" = Int 0 \/
      Str "-5" = NotANumber \/
      exists n, parseInt (Str "-5") = Return (Some n) /\ 0 < n) /\
     configure columnGap (Str "-5") = Return used /\
     used = if accepted then Str "-5" else Str "normal") /\
  validator columnGap (Str "-5") = Return false /\
  configure columnGap (Str "-5") = Return (Str "normal") /\
  validator columnGap Undefined = Return true /\
  configure columnGap Undefined = Return (Str "normal").
Proof.
  apply (columnGap_validation (Str "-5")). reflexivity.
Defined.

End PropsProperties.

(** * Further properties *)

(** ** Step 1 of the pass *)

Lemma findShortest_spec document i columns s :
  let r := findShortest document i columns s in
  (forall col, col ∈ columns -> minBottom r <= lastBottom document col) /\
  ((minBottom r = minBottom s /\
    minBottomColumnIndex r = minBottomColumnIndex s /\
    forall col, col ∈ columns -> minBottom s <= lastBottom document col) \/
   (minBottom r < minBottom s /\
    exists j col,
      minBottomColumnIndex r = (i + j)%nat /\
      columns !! j = Some col /\
      lastBottom document col = minBottom r /\
      forall j' col',
        (j' < j)%nat -> columns !! j' = Some col' ->
        minBottom r < lastBottom document col')).
Proof.
  revert i s. induction columns as [|col rest IH]; intros i s.
  { simpl. split; [by intros ? ?%elem_of_nil|]. left.
    repeat split. by intros ? ?%elem_of_nil. }
  cbn [findShortest]. cbv zeta.
  set (s' := {| bottomsAtStart := _ |}).
  destruct (IH (S i) s') as [Hall Hcase]. clear IH.
  set (r := findShortest document (S i) rest s') in *.
  assert (Hs' : minBottom s' <= minBottom s /\
                minBottom s' <= lastBottom document col).
  { subst s'. simpl. destruct (Z.ltb_spec (lastBottom document col)
                                 (minBottom s)); lia. }
  assert (Hr : minBottom r <= minBottom s').
  { destruct Hcase as [(-> & _)|(? & _)]; lia. }
  split.
  { intros c [->|Hc]%elem_of_cons; [lia|by apply Hall]. }
  destruct (Z.ltb_spec (lastBottom document col) (minBottom s)) as [Hlt|Hge].
  - right. destruct Hcase as [(Hmin & Hidx & Hrest)|(Hmin & j & c & Hidx & Hj & Hc & Hbefore)].
    + assert (Heq : minBottom s' = lastBottom document col /\
                    minBottomColumnIndex s' = i).
      { subst s'. simpl.
        by destruct (Z.ltb_spec (lastBottom document col) (minBottom s));
          [|lia]. }
      destruct Heq as [Heq Heqi].
      split; [lia|]. exists 0%nat, col. repeat split; try done; lia.
    + split; [lia|]. exists (S j), c. repeat split; try done; try lia.
      intros [|j'] col' Hj' Hcol'; simpl in Hcol'.
      * injection Hcol' as <-. lia.
      * apply (Hbefore j'); [lia|done].
  - assert (Heq : minBottom s' = minBottom s /\
                  minBottomColumnIndex s' = minBottomColumnIndex s).
    { subst s'. simpl.
      by destruct (Z.ltb_spec (lastBottom document col) (minBottom s));
        [lia|]. }
    destruct Heq as [Heq Heqi].
    destruct Hcase as [(Hmin & Hidx & Hrest)|(Hmin & j & c & Hidx & Hj & Hc & Hbefore)].
    + left. split; [lia|]. split; [congruence|].
      intros c [->|Hc]%elem_of_cons; [lia|]. rewrite <-Heq. by apply Hrest.
    + right. split; [lia|]. exists (S j), c. repeat split; try done; try lia.
      intros [|j'] col' Hj' Hcol'; simpl in Hcol'.
      * injection Hcol' as <-. lia.
      * apply (Hbefore j'); [lia|done].
Qed.

(** X1.  Step 1 finds the least bottom and the first column that has it.
    [minBottom] is at most the bottom of every column.  When some bottom is
    below [Number.MAX_SAFE_INTEGER], [minBottomColumnIndex] is a column
    whose bottom is [minBottom] and every column before it has a strictly
    greater bottom; otherwise (no column, or no bottom below that bound)
    [minBottom] stays at the bound and the index at 0. *)
Theorem shortest_is_first_minimum (document : Document)
    (columns : list (list node)) :
  let s := shortest document columns in
  (forall col, col ∈ columns -> minBottom s <= lastBottom document col) /\
  ((minBottom s < MAX_SAFE_INTEGER /\
    exists col,
      columns !! minBottomColumnIndex s = Some col /\
      lastBottom document col = minBottom s /\
      forall j col',
        (j < minBottomColumnIndex s)%nat -> columns !! j = Some col' ->
        minBottom s < lastBottom document col') \/
   (minBottom s = MAX_SAFE_INTEGER /\
    minBottomColumnIndex s = 0%nat /\
    forall col, col ∈ columns -> MAX_SAFE_INTEGER <= lastBottom document col)).
Proof.
  intros s. subst s. unfold shortest.
  set (s0 := {| bottomsAtStart := [] |}).
  destruct (findShortest_spec document 0 columns s0) as [Hall Hcase].
  split; [done|].
  destruct Hcase as [(Hmin & Hidx & Hrest)|(Hmin & j & c & Hidx & Hj & Hc & Hb)].
  - right. by repeat split.
  - left. split; [done|]. exists c. simpl in Hidx. rewrite Hidx.
    by repeat split.
Qed.

(** ** The pass as a whole *)

(** X2.  Whatever the layout, the pass completes (neither [Math.min] on no
    tracker nor a missing entry of [belowCells] is ever met) and leaves as
    many columns as it found. *)
Theorem pass_completes
    (Array_sort : (Z -> Z -> Z) -> list Z -> list Z) (document : Document)
    (columns : list (list node)) :
  Rearranges Array_sort ->
  exists columns',
    _reLayoutChildren Array_sort document columns = Some columns' /\
    length columns' = length columns.
Proof.
  intros Hsort.
  destruct (arranged_spec document Array_sort columns Hsort)
    as (a & Harr & Hdoms & Hlen & _).
  exists (appendFragments a). split.
  - unfold _reLayoutChildren. by rewrite Harr.
  - unfold appendFragments.
    rewrite length_zip_with_l_eq; rewrite Hdoms, length_map; done.
Qed.

Lemma pass_completes_witness :
  exists columns',
    _reLayoutChildren Sort.insertion Collision.document Collision.columns
      = Some columns' /\
    length columns' = length Collision.columns.
Proof.
  apply (pass_completes Sort.insertion Collision.document Collision.columns).
  exact insertion_Permutation.
Defined.

(** X3.  In a well-formed DOM (no element in two places) the pass neither
    loses nor duplicates an element, whether or not the identifiers are
    distinct: the cells of the columns after the pass are those before
    it. *)
Theorem reflow_conserves_elements
    (Array_sort : (Z -> Z -> Z) -> list Z -> list Z) (document : Document)
    (columns : list (list node)) :
  Rearranges Array_sort ->
  NoDup (concat columns) ->
  exists columns',
    _reLayoutChildren Array_sort document columns = Some columns' /\
    concat columns' ≡ₚ concat columns.
Proof.
  intros Hsort Hnd.
  destruct (arranged_spec document Array_sort columns Hsort)
    as (a & Harr & Hdoms & Hlen & Helem & Hfrag).
  exists (appendFragments a). split.
  { unfold _reLayoutChildren. by rewrite Harr. }
  apply (conservation columns a
           (placed (belowCells (below document columns))
              (sortedIds Array_sort document columns))); try done.
  intros x Hx. by eapply candidates_concat, placed_candidates.
Qed.

Lemma reflow_conserves_elements_witness :
  exists columns',
    _reLayoutChildren Sort.binaryInsertion Collision.document
      Collision.columns = Some columns' /\
    concat columns' ≡ₚ concat Collision.columns.
Proof.
  apply (reflow_conserves_elements Sort.binaryInsertion Collision.document
           Collision.columns).
  - exact binaryInsertion_Permutation.
  - apply (bool_decide_unpack _). vm_compute. exact I.
Defined.

(** X4.  The pass takes only candidates out of a column and adds only at
    its end: there is a set of moved cells, all candidates, such that every
    column afterwards holds its cells that were not moved, in their order,
    followed by moved cells. *)
Theorem columns_keep_order
    (Array_sort : (Z -> Z -> Z) -> list Z -> list Z) (document : Document)
    (columns : list (list node)) :
  Rearranges Array_sort ->
  exists columns' (moved : list node),
    _reLayoutChildren Array_sort document columns = Some columns' /\
    (forall x, x ∈ moved -> x ∈ candidates document columns) /\
    forall i col,
      columns !! i = Some col ->
      exists appended,
        columns' !! i = Some (filter (fun c => c ∉ moved) col ++ appended) /\
        forall x, x ∈ appended -> x ∈ moved.
Proof.
  intros Hsort.
  destruct (arranged_spec document Array_sort columns Hsort)
    as (a & Harr & Hdoms & Hlen & Helem & _).
  exists (appendFragments a),
    (placed (belowCells (below document columns))
       (sortedIds Array_sort document columns)).
  split; [unfold _reLayoutChildren; by rewrite Harr|].
  split; [intros x; apply placed_candidates|].
  intros i col Hi.
  destruct (lookup_lt_is_Some_2 (columnAppendFragments a) i)
    as [appended Happ].
  { rewrite Hlen. by eapply lookup_lt_Some. }
  exists appended. split.
  - unfold appendFragments.
    by rewrite lookup_zip_with, Hdoms, list_lookup_fmap, Hi, Happ.
  - intros x Hx. apply Helem, elem_of_concat. exists appended.
    split; [by eapply list_elem_of_lookup_2|done].
Qed.

Lemma columns_keep_order_witness :
  exists columns' (moved : list node),
    _reLayoutChildren Sort.insertion Scenario.document Scenario.columns
      = Some columns' /\
    (forall x,
       x ∈ moved -> x ∈ candidates Scenario.document Scenario.columns) /\
    forall i col,
      Scenario.columns !! i = Some col ->
      exists appended,
        columns' !! i = Some (filter (fun c => c ∉ moved) col ++ appended) /\
        forall x, x ∈ appended -> x ∈ moved.
Proof.
  apply (columns_keep_order Sort.insertion Scenario.document
           Scenario.columns).
  exact insertion_Permutation.
Defined.

Lemma shortest_index_lt document columns :
  columns ≠ [] ->
  (minBottomColumnIndex (shortest document columns) < length columns)%nat.
Proof.
  intros Hne. unfold shortest.
  set (s0 := {| bottomsAtStart := [] |}).
  destruct (findShortest_spec document 0 columns s0)
    as [_ [(_ & -> & _)|(_ & j & col & -> & Hcol & _)]].
  - destruct columns; [done|simpl; lia].
  - by eapply lookup_lt_Some.
Qed.

(** X5.  With one column or none the pass is a no-op: the only column is
    the shortest one, nothing is scanned and the columns are returned as
    they are. *)
Theorem single_column_is_left_alone
    (Array_sort : (Z -> Z -> Z) -> list Z -> list Z) (document : Document)
    (columns : list (list node)) :
  Rearranges Array_sort ->
  (length columns <= 1)%nat ->
  candidates document columns = [] /\
  _reLayoutChildren Array_sort document columns = Some columns.
Proof.
  intros Hsort Hlen.
  assert (Hbal : Balanced document columns).
  { intros i col c Hi Hne _. exfalso. apply Hne.
    pose proof (lookup_lt_Some _ _ _ Hi) as Hlt.
    assert (Hcols : columns ≠ []) by (by destruct columns).
    pose proof (shortest_index_lt document columns Hcols). lia. }
  pose proof (Balanced_candidates document columns Hbal) as Hcands.
  split; [done|].
  assert (Hsorted : sortedIds Array_sort document columns = []).
  { unfold sortedIds. apply Permutation_nil_r.
    by rewrite (Hsort _ _), below_ids, Hcands. }
  unfold _reLayoutChildren, arranged. rewrite Hsorted. simpl.
  unfold appendFragments. simpl. by rewrite zip_app_empty.
Qed.

Lemma single_column_is_left_alone_witness :
  candidates Scenario.document [[1; 5; 6]]%nat = [] /\
  _reLayoutChildren Sort.binaryInsertion Scenario.document [[1; 5; 6]]%nat
    = Some [[1; 5; 6]]%nat.
Proof.
  apply (single_column_is_left_alone Sort.binaryInsertion Scenario.document
           [[1; 5; 6]]%nat).
  - exact binaryInsertion_Permutation.
  - simpl. lia.
Defined.

(** ** The map of candidates *)

(** X6.  After step 2 the map has an entry under exactly the identifiers
    collected, and an entry holds a candidate of that identifier together
    with its own measured height. *)
Theorem belowCells_entries (document : Document)
    (columns : list (list node)) (id : Z) :
  (is_Some (belowCells (below document columns) !! id) <->
   id ∈ belowCellIds (below document columns)) /\
  (forall belowCell,
     belowCells (below document columns) !! id = Some belowCell ->
     elm belowCell ∈ candidates document columns /\
     cellId document (elm belowCell) = id /\
     height belowCell =
       DOMRect.height (getBoundingClientRect document (elm belowCell))).
Proof.
  rewrite below_lookup, below_ids. split.
  - split.
    + intros [bc Hbc].
      destruct (lastWithId document id _) as [c|] eqn:Hc; [|done].
      apply lastWithId_elem in Hc as [Hin <-].
      by apply list_elem_of_fmap_2.
    + intros (c & -> & Hin)%list_elem_of_fmap.
      destruct (lastWithId_is_Some document _ _ Hin) as [c' ->].
      by eexists.
  - intros bc Hbc.
    destruct (lastWithId document id _) as [c|] eqn:Hc; [|done].
    injection Hbc as <-. by apply lastWithId_elem in Hc as [Hin <-].
Qed.

(** ** The loop of step 3 *)

Lemma fold_min_le rest y : fold_left Z.min rest y <= y.
Proof.
  revert y. induction rest as [|z rest IH]; intros y; simpl; [lia|].
  specialize (IH (Z.min y z)). lia.
Qed.

Lemma Math_min_le array m x : Math_min array = Some m -> x ∈ array -> m <= x.
Proof.
  destruct array as [|y rest]; [done|]. simpl. intros [= <-].
  revert y. induction rest as [|z rest IH]; intros y; simpl.
  - intros ->%list_elem_of_singleton. lia.
  - pose proof (fold_min_le rest (Z.min y z)).
    intros [->|[->|Hx]%elem_of_cons]%elem_of_cons; [lia..|].
    apply IH. by apply list_elem_of_further.
Qed.

Lemma indexOf_first array x k :
  indexOf array x = Some k ->
  array !! k = Some x /\
  forall j y, (j < k)%nat -> array !! j = Some y -> y ≠ x.
Proof.
  revert k. induction array as [|y rest IH]; intros k; [done|]. simpl.
  destruct (Z.eqb_spec y x) as [->|Hne].
  - intros [= <-]. split; [done|]. intros; lia.
  - destruct (indexOf rest x) as [k'|]; [|done]. simpl. intros [= <-].
    destruct (IH k' eq_refl) as [Hk Hfirst]. split; [done|].
    intros [|j] z Hj Hz; simpl in Hz.
    + by injection Hz as <-.
    + apply (Hfirst j); [lia|done].
Qed.

(** X7.  [addToShortestColumn] puts the cell at the end of the fragment of
    the first column whose tracker is the least: no tracker is below the
    chosen one, every tracker before it is strictly greater, and only the
    chosen tracker changes, growing by the height of the cell. *)
Theorem addToShortestColumn_first_shortest (a : Arrangement)
    (belowCell : BelowCell) :
  bottoms a ≠ [] ->
  length (columnAppendFragments a) = length (bottoms a) ->
  exists k m a' fragment,
    addToShortestColumn a (Some belowCell) = Some a' /\
    bottoms a !! k = Some m /\
    (forall j b, bottoms a !! j = Some b -> m <= b) /\
    (forall j b, (j < k)%nat -> bottoms a !! j = Some b -> m < b) /\
    bottoms a' = <[k := m + height belowCell]> (bottoms a) /\
    columnAppendFragments a' !! k = Some (fragment ++ [elm belowCell]) /\
    elm belowCell ∉ concat (columnDoms a').
Proof.
  intros Hne Hlen. unfold addToShortestColumn.
  destruct (Math_min (bottoms a)) as [m|] eqn:Hmin;
    [|by destruct (bottoms a)].
  destruct (indexOf_elem _ _ (Math_min_elem _ _ Hmin)) as (k & Hk & Hlt).
  rewrite Hk. destruct (indexOf_first _ _ _ Hk) as [Hm Hfirst].
  destruct (lookup_lt_is_Some_2 (columnAppendFragments a) k)
    as [fragment Hfragment]; [lia|].
  destruct belowCell as [cellElm cellHeight]. simpl.
  eexists k, m, _, (detach cellElm fragment). split; [done|]. simpl.
  split; [done|]. split.
  { intros j b Hb. eapply Math_min_le; [done|].
    by eapply list_elem_of_lookup_2. }
  split.
  { intros j b Hj Hb.
    assert (m <= b).
    { eapply Math_min_le; [done|]. by eapply list_elem_of_lookup_2. }
    assert (b ≠ m) by (by eapply Hfirst). lia. }
  split.
  { apply list_eq. intros j. destruct (decide (j = k)) as [->|Hjk].
    - rewrite list_lookup_alter_eq, list_lookup_insert_eq by lia.
      rewrite Hm. done.
    - by rewrite list_lookup_alter_ne, list_lookup_insert_ne. }
  split.
  { by rewrite list_lookup_alter_eq, list_lookup_fmap, Hfragment. }
  rewrite concat_detach. unfold detach. rewrite list_elem_of_filter. tauto.
Qed.

Lemma addToShortestColumn_first_shortest_witness :
  exists k m a' fragment,
    addToShortestColumn Scenario.start (Some {| elm := 5%nat; height := 20 |})
      = Some a' /\
    bottoms Scenario.start !! k = Some m /\
    (forall j b, bottoms Scenario.start !! j = Some b -> m <= b) /\
    (forall j b,
       (j < k)%nat -> bottoms Scenario.start !! j = Some b -> m < b) /\
    bottoms a' = <[k := m + 20]> (bottoms Scenario.start) /\
    columnAppendFragments a' !! k = Some (fragment ++ [5%nat]) /\
    5%nat ∉ concat (columnDoms a').
Proof.
  apply (addToShortestColumn_first_shortest Scenario.start
           {| elm := 5%nat; height := 20 |}).
  - discriminate.
  - reflexivity.
Defined.

(** ** The order of step 3 *)

(** X10.  On the run-detecting binary insertion sort the comparator of the
    pass has no effect: for every layout the identifiers are processed in
    the order of the scan. *)
Theorem binary_insertion_keeps_scan_order (document : Document)
    (columns : list (list node)) :
  sortedIds Sort.binaryInsertion document columns =
  cellId document <$> candidates document columns.
Proof.
  unfold sortedIds. by rewrite binaryInsertion_comparefn, below_ids.
Qed.

(** X11.  On the sort of V8 before 7.0 the comparator of the pass does
    sort as long as there are at most 10 candidates, the arrays that sort
    hands to its insertion sort: the identifiers processed are then the
    identifiers collected, in ascending order, whatever its quicksort does
    on longer arrays. *)
Theorem insertion_sort_orders_identifiers
    (QuickSort : (Z -> Z -> Z) -> list Z -> list Z) (document : Document)
    (columns : list (list node)) :
  (length (candidates document columns) <= 10)%nat ->
  let Array_sort :=
    fun comparefn => Sort.legacy comparefn (QuickSort comparefn) in
  StronglySorted Z.le (sortedIds Array_sort document columns) /\
  sortedIds Array_sort document columns
    ≡ₚ cellId document <$> candidates document columns.
Proof.
  intros Hshort Array_sort.
  assert (Hsorted :
    sortedIds Array_sort document columns =
    Sort.insertion comparefn (belowCellIds (below document columns))).
  { unfold sortedIds, Array_sort, Sort.legacy.
    rewrite decide_True; [done|].
    by rewrite below_ids, length_map. }
  rewrite Hsorted. split; [apply insertion_comparefn_sorted|].
  by rewrite insertion_Permutation, below_ids.
Qed.

Lemma insertion_sort_orders_identifiers_witness :
  (length (candidates Scenario.document Scenario.columns) <= 10)%nat /\
  StronglySorted Z.le
    (sortedIds (fun comparefn => Sort.legacy comparefn (fun array => array))
       Scenario.document Scenario.columns) /\
  sortedIds (fun comparefn => Sort.legacy comparefn (fun array => array))
    Scenario.document Scenario.columns
    ≡ₚ cellId Scenario.document
         <$> candidates Scenario.document Scenario.columns.
Proof.
  assert (Hshort :
    (length (candidates Scenario.document Scenario.columns) <= 10)%nat).
  { apply (bool_decide_unpack _). vm_compute. exact I. }
  split; [exact Hshort|].
  exact (insertion_sort_orders_identifiers (fun _ array => array)
           Scenario.document Scenario.columns Hshort).
Defined.

(** ** More on the slot classification *)

Section ChildrenMore.

Import Children.

Lemma ofGroup_app g (l k : list VNode) :
  ofGroup g (l ++ k) = ofGroup g l ++ ofGroup g k.
Proof. unfold ofGroup. apply filter_app. Qed.

Lemma ofGroup_ofGroup g g' (slots : list VNode) :
  ofGroup g (ofGroup g' slots) =
  if decide (g = g') then ofGroup g slots else [].
Proof.
  induction slots as [|v slots IH]; [by case_decide|].
  rewrite (ofGroup_cons g'), (ofGroup_cons g).
  destruct (decide (group v = g')) as [Hv|Hv].
  - rewrite ofGroup_cons, IH.
    destruct (decide (g = g')) as [->|Hg].
    + by rewrite decide_True.
    + by rewrite decide_False by congruence.
  - rewrite IH. destruct (decide (g = g')) as [->|Hg]; [|done].
    by rewrite decide_False.
Qed.

Lemma ofGroup_option_list g g' (x : option VNode) :
  (forall v, x = Some v -> group v = g') -> g ≠ g' ->
  ofGroup g (option_list x) = [].
Proof.
  intros Hx Hg. destruct x as [v|]; [|done]. simpl.
  rewrite ofGroup_cons, decide_False; [done|].
  rewrite (Hx v eq_refl). congruence.
Qed.

Lemma ofGroup_indicator g (x : option VNode) :
  (forall v, x = Some v -> group v = g) ->
  ofGroup g (option_list x) = option_list x.
Proof.
  intros Hx. destruct x as [v|]; [|done]. simpl.
  by rewrite ofGroup_cons, decide_True by (by apply Hx).
Qed.

Lemma ofGroup_children this slots g :
  Stored this ->
  ofGroup g (flat_map slotsOf (_createChildren this slots).2) =
  match g with
  | Dropped => []
  | Refresh => option_list (latest Refresh slots (_refresh this))
  | Loading => option_list (latest Loading slots (_loading this))
  | _ => ofGroup g slots
  end.
Proof.
  intros [Hrefresh Hloading].
  assert (Hr : forall v,
    latest Refresh slots (_refresh this) = Some v -> group v = Refresh).
  { intros v. by apply latest_group. }
  assert (Hl : forall v,
    latest Loading slots (_loading this) = Some v -> group v = Loading).
  { intros v. by apply latest_group. }
  rewrite slotsOf_children, !ofGroup_app, !ofGroup_ofGroup.
  destruct g;
    rewrite ?(ofGroup_indicator _ _ Hr), ?(ofGroup_indicator _ _ Hl),
      ?(ofGroup_option_list _ _ _ Hr), ?(ofGroup_option_list _ _ _ Hl)
      by done;
    repeat case_decide; try done; by rewrite ?app_nil_r.
Qed.

(** X12.  No node with a tag and component options is lost or repeated
    among the children, and the order of the slots is kept within a group:
    the headers, the footers, the other nodes and the cells found in the
    returned tree are those of the slots, in the order of the slots. *)
Theorem children_keep_every_group (this : Waterfall) (slots : list VNode)
    (g : Group) :
  Stored this ->
  g ∈ [Header; Footer; Other; Cell] ->
  ofGroup g (flat_map slotsOf (_createChildren this slots).2) =
  ofGroup g slots.
Proof.
  intros Hstored Hg. rewrite ofGroup_children by done.
  repeat (apply elem_of_cons in Hg as [->|Hg]; [done|]).
  by apply elem_of_nil in Hg.
Qed.

Lemma children_keep_every_group_witness :
  ofGroup Cell
    (flat_map slotsOf
       (_createChildren Slots.fresh [Slots.text; Slots.cell; Slots.cell]).2) =
  ofGroup Cell [Slots.text; Slots.cell; Slots.cell].
Proof.
  apply (children_keep_every_group Slots.fresh
           [Slots.text; Slots.cell; Slots.cell] Cell).
  - split; intros vnode; simpl; discriminate.
  - set_solver.
Defined.

(** X13.  At most one refresh indicator is rendered: the last refresh node
    of the slots when there is one, and otherwise the one kept from an
    earlier call.  [this._refresh] holds that node after the call. *)
Theorem one_refresh_indicator (this : Waterfall) (slots : list VNode) :
  Stored this ->
  let this' := (_createChildren this slots).1 in
  ofGroup Refresh (flat_map slotsOf (_createChildren this slots).2) =
    option_list (_refresh this') /\
  (forall vnode,
     last (ofGroup Refresh slots) = Some vnode ->
     _refresh this' = Some vnode) /\
  (ofGroup Refresh slots = [] -> _refresh this' = _refresh this).
Proof.
  intros Hstored this'. subst this'.
  rewrite ofGroup_children, _createChildren_this by done. simpl.
  split; [done|]. unfold latest. split.
  - by intros vnode ->.
  - by intros ->.
Qed.

Lemma one_refresh_indicator_witness :
  ofGroup Refresh
    (flat_map slotsOf
       (_createChildren Slots.fresh
          [Slots.refresh "first"; Slots.cell; Slots.refresh "second"]).2)
    = [Slots.refresh "second"] /\
  _refresh
    (_createChildren Slots.fresh
       [Slots.refresh "first"; Slots.cell; Slots.refresh "second"]).1
    = Some (Slots.refresh "second").
Proof.
  destruct (one_refresh_indicator Slots.fresh
              [Slots.refresh "first"; Slots.cell; Slots.refresh "second"])
    as (Hchildren & Hlast & _).
  - split; intros vnode; simpl; discriminate.
  - rewrite Hchildren.
    rewrite (Hlast (Slots.refresh "second")); [|reflexivity].
    split; reflexivity.
Defined.

Lemma latest_latest g slots previous :
  latest g slots (latest g slots previous) = latest g slots previous.
Proof. unfold latest. by destruct (last (ofGroup g slots)). Qed.

(** X14.  A second call on the same slots changes nothing: it returns the
    children the first call returned and leaves [this] as the first call
    left it. *)
Theorem _createChildren_again (this : Waterfall) (slots : list VNode) :
  _createChildren (_createChildren this slots).1 slots =
  _createChildren this slots.
Proof.
  rewrite (surjective_pairing (_createChildren (_ .1) slots)).
  rewrite (surjective_pairing (_createChildren this slots)) at 3.
  rewrite !_createChildren_this, !_createChildren_children. simpl.
  by rewrite !latest_latest.
Qed.

(** X15.  [_createChildren] never clears [this._refresh]: a refresh node
    stored by an earlier call is rendered again, first among the children,
    when the slots hold no refresh node any more. *)
Theorem stale_refresh_is_rendered (this : Waterfall) (slots : list VNode)
    (vnode : VNode) :
  _refresh this = Some vnode ->
  ofGroup Refresh slots = [] ->
  _refresh (_createChildren this slots).1 = Some vnode /\
  exists rest,
    (_createChildren this slots).2 = [h "html:div" (Slot vnode :: rest)].
Proof.
  intros Hrefresh Hnone.
  rewrite _createChildren_this, _createChildren_children.
  unfold latest. rewrite Hnone, Hrefresh. simpl.
  split; [done|]. by eexists.
Qed.

Lemma stale_refresh_is_rendered_witness :
  let once :=
    (_createChildren Slots.fresh
       [{| tag := Some "vue-component-2-refresh";
           componentOptions := Some {| ctag := Some "refresh" |};
           data := {| attrs := None |} |}]).1 in
  exists vnode,
    _refresh (_createChildren once [Slots.cell]).1 = Some vnode /\
    exists rest,
      (_createChildren once [Slots.cell]).2
        = [h "html:div" (Slot vnode :: rest)].
Proof.
  eexists.
  apply (stale_refresh_is_rendered _ [Slots.cell]); reflexivity.
Defined.

(** X16.  When no slot has both a tag and component options (so also when
    there is no slot) nothing is classified: the groups are empty, the
    indicators are as before, and the children are the indicators kept from
    an earlier call around an empty grid. *)
Theorem nothing_to_classify (this : Waterfall) (slots : list VNode) :
  (forall vnode, vnode ∈ slots -> Untagged vnode) ->
  (_createChildren this slots).1 =
    {| _headers := []; _others := []; _footers := []; _cells := [];
       _refresh := _refresh this; _loading := _loading this;
       _listCells := [] |} /\
  (_createChildren this slots).2 =
    [h "html:div"
       (optional (_refresh this) ++ [h "html:div" []] ++
        optional (_loading this))].
Proof.
  intros Hall.
  assert (Hnone : forall g, g ≠ Dropped -> ofGroup g slots = []).
  { intros g Hg. unfold ofGroup.
    induction slots as [|v slots IH]; [done|].
    rewrite filter_cons, decide_False.
    - apply IH. intros x Hx. apply Hall. by right.
    - assert (group v = Dropped) as ->; [|done].
      apply group_Dropped, Hall. by left. }
  rewrite _createChildren_this, _createChildren_children.
  unfold latest. by rewrite !Hnone.
Qed.

Lemma nothing_to_classify_witness :
  (_createChildren Slots.fresh [Slots.text]).2 =
    [h "html:div"
       (optional (_refresh Slots.fresh) ++ [h "html:div" []] ++
        optional (_loading Slots.fresh))].
Proof.
  apply (nothing_to_classify Slots.fresh [Slots.text]).
  intros vnode ->%list_elem_of_singleton. by left.
Defined.

End ChildrenMore.

(** ** [render] *)

Section RenderMore.

Import Children Render.


End RenderMore.

(** ** The validators of [columnCount] and [columnWidth] *)

Section PropsMore.

Import Props.

(** X18.  On a String or a Number the validator of [columnCount] returns
    without throwing and accepts exactly what [parseInt] reads as a
    strictly positive integer.  Unlike the other two validators it has no
    guard: the empty string, 0, NaN and ['auto'] are rejected. *)
Theorem columnCount_validation (val : Value) :
  hasType val = true ->
  exists accepted,
    validator columnCount val = Return accepted /\
    (accepted = true <->
     exists n, parseInt val = Return (Some n) /\ 0 < n) /\
    (falsy val = true \/ val = Str "auto" -> accepted = false).
Proof.
  intros Htype.
  destruct val as [|s|n| |]; try discriminate; simpl.
  - exists (positive (JS.parseInt s)). split; [done|]. split.
    + rewrite positive_spec. split.
      * intros (n & Hn & Hpos). exists n. by rewrite Hn.
      * intros (n & [= Hn] & Hpos). by exists n.
    + intros [Hempty%String.eqb_eq|[= ->]]; by subst.
  - exists (0 <? n). split; [done|]. split.
    + rewrite Z.ltb_lt. split.
      * intros Hpos. by exists n.
      * by intros (m & [= <-] & Hpos).
    + intros [Hzero%Z.eqb_eq|[=]]. by subst.
  - exists false. split; [done|]. split; [|done].
    split; [done|]. by intros (n & [=] & _).
Qed.

Lemma columnCount_validation_witness :
  exists accepted,
    validator columnCount (Str "2") = Return accepted /\
    (accepted = true <->
     exists n, parseInt (Str "2") = Return (Some n) /\ 0 < n) /\
    (falsy (Str "2") = true \/ Str "2" = Str "auto" -> accepted = false).
Proof.
  apply (columnCount_validation (Str "2")). reflexivity.
Defined.

(** X19.  On a String or a Number the validator of [columnWidth] returns
    without throwing and accepts exactly ['auto'], the values [!val] holds
    of (the empty string, 0 and NaN) and what [parseInt] reads as a strictly
    positive integer. *)
Theorem columnWidth_validation (val : Value) :
  hasType val = true ->
  exists accepted,
    validator columnWidth val = Return accepted /\
    (accepted = true <->
     val = Str "auto" \/ val = Str "" \/ val = Int 0 \/ val = NotANumber \/
     exists n, parseInt val = Return (Some n) /\ 0 < n).
Proof.
  intros Htype.
  destruct val as [|s|n| |]; try discriminate; simpl.
  - destruct (String.eqb_spec s "") as [->|Hempty]; simpl.
    { exists true. repeat split; auto. }
    destruct (String.eqb_spec s "auto") as [->|Hauto]; simpl.
    { exists true. repeat split; auto. }
    exists (positive (JS.parseInt s)). split; [done|].
    rewrite positive_spec. split.
    + intros (n & Hn & Hpos). do 4 right. exists n. by rewrite Hn.
    + intros [[= ->]|[[= ->]|[[=]|[[=]|(n & [= Hn] & Hpos)]]]]; try done.
      by exists n.
  - destruct (Z.eqb_spec n 0) as [->|Hzero]; simpl.
    { exists true. repeat split; auto. }
    exists (0 <? n). split; [done|].
    rewrite Z.ltb_lt. split.
    + intros Hpos. do 4 right. by exists n.
    + intros [[=]|[[=]|[[= ->]|[[=]|(m & [= <-] & Hpos)]]]]; done.
  - exists true. repeat split; auto.
Qed.

Lemma columnWidth_validation_witness :
  exists accepted,
    validator columnWidth (Str "auto") = Return accepted /\
    (accepted = true <->
     Str "auto" = Str "auto" \/ Str "auto" = Str "" \/ Str "auto" = Int 0 \/
     Str "auto" = NotANumber \/
     exists n, parseInt (Str "auto") = Return (Some n) /\ 0 < n).
Proof.
  apply (columnWidth_validation (Str "auto")). reflexivity.
Defined.

(** X20.  Whatever [columnCount] accepts, [columnGap] and [columnWidth]
    accept too: a value good as a count is good as a gap and as a width. *)
Theorem count_is_gap_and_width (val : Value) :
  validator columnCount val = Return true ->
  validator columnGap val = Return true /\
  validator columnWidth val = Return true.
Proof.
  simpl. intros Hcount.
  destruct (parseInt val) as [parsed|]; [|done].
  injection Hcount as ->.
  split; by destruct (falsy val || _).
Qed.

Lemma count_is_gap_and_width_witness :
  validator columnGap (Int 3) = Return true /\
  validator columnWidth (Int 3) = Return true.
Proof.
  apply (count_is_gap_and_width (Int 3)). reflexivity.
Defined.

End PropsMore.

(** ** Sticky headers *)

Section ScrollMore.

Import Scroll.

Lemma elem_of_stickyHeaders children i vm :
  (i, vm) ∈ stickyHeaders children <->
  children !! i = Some vm /\ sticky vm = true.
Proof.
  unfold stickyHeaders. rewrite list_elem_of_filter. simpl.
  rewrite list_elem_of_lookup. setoid_rewrite list_lookup_imap.
  split.
  - intros [Hs [j Hj]]. destruct (children !! j) as [vm'|] eqn:Hvm; [|done].
    by injection Hj as <- <-.
  - intros [Hi Hs]. split; [done|]. exists i. by rewrite Hi.
Qed.

Lemma stickyHeaders_NoDup children : NoDup (stickyHeaders children).*1.
Proof.
  unfold stickyHeaders.
  assert (Himap : forall k, NoDup (imap (fun j => pair (k + j)%nat) children).*1
            /\ forall p, p ∈ (imap (fun j => pair (k + j)%nat) children).*1 ->
                 (k <= p)%nat).
  { induction children as [|c children IH]; intros k.
    { split; [constructor|]. by intros ? ?%elem_of_nil. }
    rewrite imap_cons. csimpl.
    assert (Hext : imap ((fun j => pair (k + j)%nat) ∘ S) children =
                   imap (fun j => pair (S k + j)%nat) children).
    { apply imap_ext. intros j x _. simpl. f_equal. lia. }
    rewrite Hext. destruct (IH (S k)) as [Hnd Hge]. split.
    - constructor; [|done]. intros Hin%Hge. lia.
    - intros p [->|Hp%Hge]%elem_of_cons; lia. }
  destruct (Himap 0%nat) as [Hnd _].
  assert (Hsub : forall l : list (nat * Child),
    NoDup l.*1 -> NoDup (filter (fun vm => sticky vm.2 = true) l).*1).
  { induction l as [|[j c] l IHl]; [done|].
    rewrite fmap_cons. intros [Hj Hl]%NoDup_cons.
    rewrite filter_cons. case_decide; [|by apply IHl].
    rewrite fmap_cons. constructor; [|by apply IHl].
    intros Hin. apply Hj. simpl in *.
    apply list_elem_of_fmap in Hin as ([j' c'] & -> & Hin).
    apply list_elem_of_filter in Hin as [_ Hin].
    apply list_elem_of_fmap. by exists (j', c'). }
  by apply Hsub.
Qed.

Lemma elem_of_updateSticky scrollTop h call :
  call ∈ updateSticky scrollTop h <->
  exists i vm,
    (i, vm) ∈ h /\
    call = if initTop vm <? scrollTop then addSticky i else removeSticky i.
Proof.
  induction h as [|[j c] h IH]; simpl.
  { rewrite elem_of_nil. split; [done|]. by intros (? & ? & ?%elem_of_nil & _). }
  rewrite elem_of_cons, IH. split.
  - intros [->|(i & vm & Hin & ->)].
    + exists j, c. split; [by left|done].
    + exists i, vm. split; [by right|done].
  - intros (i & vm & [[= -> ->]|Hin]%elem_of_cons & ->); [by left|].
    right. by exists i, vm.
Qed.

Lemma handleListScroll_calls scrollTop children :
  handleListScroll false scrollTop children =
  handleScroll :: updateSticky scrollTop (stickyHeaders children).
Proof.
  unfold handleListScroll. by destruct (stickyHeaders children).
Qed.

Lemma addSticky_called scrollTop children i :
  addSticky i ∈ handleListScroll false scrollTop children <->
  exists vm,
    children !! i = Some vm /\ sticky vm = true /\ initTop vm < scrollTop.
Proof.
  rewrite handleListScroll_calls, elem_of_cons, elem_of_updateSticky.
  split.
  - intros [[=]|(j & vm & Hin%elem_of_stickyHeaders & Hcall)].
    destruct (Z.ltb_spec (initTop vm) scrollTop); [|done].
    injection Hcall as ->. exists vm. tauto.
  - intros (vm & Hi & Hs & Hlt). right. exists i, vm.
    split; [by apply elem_of_stickyHeaders|].
    by destruct (Z.ltb_spec (initTop vm) scrollTop); [|lia].
Qed.

Lemma removeSticky_called scrollTop children i :
  removeSticky i ∈ handleListScroll false scrollTop children <->
  exists vm,
    children !! i = Some vm /\ sticky vm = true /\ scrollTop <= initTop vm.
Proof.
  rewrite handleListScroll_calls, elem_of_cons, elem_of_updateSticky.
  split.
  - intros [[=]|(j & vm & Hin%elem_of_stickyHeaders & Hcall)].
    destruct (Z.ltb_spec (initTop vm) scrollTop); [done|].
    injection Hcall as ->. exists vm. tauto.
  - intros (vm & Hi & Hs & Hge). right. exists i, vm.
    split; [by apply elem_of_stickyHeaders|].
    by destruct (Z.ltb_spec (initTop vm) scrollTop); [lia|].
Qed.

(** X21.  Without native support the handler calls [addSticky] on a child
    exactly when the child is a header with a truthy [data-sticky]
    attribute whose [initTop] is strictly below the scroll offset, and
    [removeSticky] exactly when it is such a header whose [initTop] is not
    below the offset.  Any other child is left alone. *)
Theorem sticky_calls (scrollTop : Z) (children : list Child) (i : nat) :
  (addSticky i ∈ handleListScroll false scrollTop children <->
   exists vm,
     children !! i = Some vm /\ sticky vm = true /\ initTop vm < scrollTop) /\
  (removeSticky i ∈ handleListScroll false scrollTop children <->
   exists vm,
     children !! i = Some vm /\ sticky vm = true /\ scrollTop <= initTop vm).
Proof.
  split.
  - apply addSticky_called.
  - apply removeSticky_called.
Qed.

Lemma updateSticky_NoDup scrollTop h :
  NoDup h.*1 -> NoDup (updateSticky scrollTop h).
Proof.
  induction h as [|[j c] h IH]; [constructor|].
  rewrite fmap_cons. intros [Hj Hh]%NoDup_cons. simpl.
  constructor; [|by apply IH].
  intros (i & vm & Hin & Hcall)%elem_of_updateSticky.
  apply Hj. simpl. apply list_elem_of_fmap. exists (i, vm).
  split; [|done]. simpl.
  by destruct (initTop c <? scrollTop), (initTop vm <? scrollTop);
    simplify_eq.
Qed.

(** X22.  One scroll event gives a child at most one call: no call is made
    twice, and no child is both made sticky and released. *)
Theorem one_call_per_header (supportSticky : bool) (scrollTop : Z)
    (children : list Child) :
  NoDup (handleListScroll supportSticky scrollTop children) /\
  forall i,
    ~ (addSticky i ∈ handleListScroll supportSticky scrollTop children /\
       removeSticky i ∈ handleListScroll supportSticky scrollTop children).
Proof.
  destruct supportSticky.
  { split; [repeat constructor; set_solver|].
    intros i [[[=]|?%elem_of_nil]%elem_of_cons _]. done. }
  split.
  - rewrite handleListScroll_calls. constructor.
    + by intros (? & ? & _ & Hcall)%elem_of_updateSticky; destruct (_ <? _).
    + apply updateSticky_NoDup, stickyHeaders_NoDup.
  - intros i [Hadd Hremove].
    apply addSticky_called in Hadd as (vm & Hvm & _ & Hlt).
    apply removeSticky_called in Hremove as (vm' & Hvm' & _ & Hge).
    simplify_eq. lia.
Qed.

(** X23.  Scrolling further down releases no header: a header made sticky
    at one offset is made sticky at every greater offset. *)
Theorem sticky_is_monotone (scrollTop scrollTop' : Z)
    (children : list Child) (i : nat) :
  scrollTop <= scrollTop' ->
  addSticky i ∈ handleListScroll false scrollTop children ->
  addSticky i ∈ handleListScroll false scrollTop' children.
Proof.
  intros Hle (vm & Hvm & Hs & Hlt)%addSticky_called.
  apply addSticky_called. exists vm. repeat split; [done..|lia].
Qed.

Lemma sticky_is_monotone_witness :
  addSticky 0
    ∈ handleListScroll false 20
        [{| header := true;
            attrs := Some {[ "data-sticky" := Props.Str "true" ]};
            initTop := 5 |}].
Proof.
  apply (sticky_is_monotone 10 20).
  - lia.
  - vm_compute. apply list_elem_of_further, list_elem_of_here.
Defined.

End ScrollMore.
